(** * json-utils: canonical form, stable strings, semantic equality, dedupe

    A shallow embedding of [types.ts], [canonicalize.ts], [stringify.ts],
    [compare.ts], [dedupe.ts] and [parse.ts], with the properties of the
    specification stated and proved over it.

    Conventions of the embedding.
    - A JavaScript string is a [string]: its code units are the bytes of the
      Rocq string (code units above 0xFF are outside the embedding).
    - A JavaScript number is a [number]: the special doubles and the doubles
      whose value is an integer.
    - A value is a finite tree: a cyclic structure, on which the functions do
      not return, is outside the embedding.
    - An object is the list of its own enumerable properties in the order in
      which [Object.keys] enumerates them.  The theorems hold of every
      property list, a fortiori of those in enumeration order.  An
      assignment [o[key] = v] defines an own property for every key: there
      is no [__proto__] accessor, as in Deno, the runtime of the tests.
    - An optional parameter is an [option]; a function that can throw
      returns a [completion].
    - [JSON.stringify], [JSON.parse] and [Array.prototype.sort] belong to the
      runtime; they are written after ECMA-262. *)

From Stdlib Require Import ZArith NArith Ascii String DecimalString DecimalN DecimalZ.
From stdpp Require Import base list strings sorting gmap.

Local Open Scope string_scope.
Local Open Scope list_scope.
Local Open Scope Z_scope.

Set Warnings "-register-all,-clear-no-such-hyp".

(** ** The value types of [types.ts] *)

(** Doubles.  [Int z] is the double whose value is the integer [z] (exact for
    the safe integers, [|z| < 2^53]); [NegZero] is [-0], kept apart from
    [Int 0] because [Object.is] and the JSON codec tell them apart. *)
Inductive number : Type :=
  | NaN
  | Infinity
  | NegInfinity
  | NegZero
  | Int (z : Z).

(** [JsonLikeValue]: the union [JsonValue | JsonLikeObject | JsonLikeArray |
    undefined].  [JsonValue] is the same union without [undefined]; TypeScript
    erases the difference at run time, so it is the predicate [JsonValue]
    below rather than a second type.  A hole of a sparse array reads as
    [undefined] in a [for ... of] loop and is written [JUndefined]. *)
Inductive JsonLikeValue : Type :=
  | JUndefined
  | JNull
  | JBoolean (b : bool)
  | JNumber (n : number)
  | JString (s : string)
  | JArray (elements : list JsonLikeValue)
  | JObject (properties : list (string * JsonLikeValue)).

Definition JsonLikeObject := list (string * JsonLikeValue).

Global Instance number_eq_dec : EqDecision number.
Proof. solve_decision. Defined.

Section JsonLikeValue_induction.
Variable P : JsonLikeValue → Prop.
Hypothesis Hundefined : P JUndefined.
Hypothesis Hnull : P JNull.
Hypothesis Hboolean : ∀ b, P (JBoolean b).
Hypothesis Hnumber : ∀ n, P (JNumber n).
Hypothesis Hstring : ∀ s, P (JString s).
Hypothesis Harray : ∀ elements, Forall P elements → P (JArray elements).
Hypothesis Hobject :
  ∀ properties, Forall (λ kv, P kv.2) properties → P (JObject properties).

Fixpoint JsonLikeValue_nested_ind (v : JsonLikeValue) : P v :=
  match v with
  | JUndefined => Hundefined
  | JNull => Hnull
  | JBoolean b => Hboolean b
  | JNumber n => Hnumber n
  | JString s => Hstring s
  | JArray elements =>
      Harray elements
        ((fix all (l : list JsonLikeValue) : Forall P l :=
            match l with
            | [] => @List.Forall_nil _ P
            | e :: l' =>
                @List.Forall_cons _ P e l' (JsonLikeValue_nested_ind e) (all l')
            end) elements)
  | JObject properties =>
      Hobject properties
        ((fix all (l : JsonLikeObject) : Forall (λ kv, P kv.2) l :=
            match l with
            | [] => @List.Forall_nil _ _
            | kv :: l' =>
                @List.Forall_cons _ (λ kv, P kv.2) kv l'
                  (JsonLikeValue_nested_ind kv.2) (all l')
            end) properties)
  end.
End JsonLikeValue_induction.

Fixpoint JsonLikeValue_eqb (a b : JsonLikeValue) {struct a} : bool :=
  match a, b with
  | JUndefined, JUndefined => true
  | JNull, JNull => true
  | JBoolean x, JBoolean y => Bool.eqb x y
  | JNumber x, JNumber y => bool_decide (x = y)
  | JString x, JString y => String.eqb x y
  | JArray xs, JArray ys =>
      (fix go (xs ys : list JsonLikeValue) {struct xs} : bool :=
         match xs, ys with
         | [], [] => true
         | x :: xs', y :: ys' => JsonLikeValue_eqb x y && go xs' ys'
         | _, _ => false
         end) xs ys
  | JObject ps, JObject qs =>
      (fix go (ps qs : JsonLikeObject) {struct ps} : bool :=
         match ps, qs with
         | [], [] => true
         | (k, x) :: ps', (k', y) :: qs' =>
             String.eqb k k' && JsonLikeValue_eqb x y && go ps' qs'
         | _, _ => false
         end) ps qs
  | _, _ => false
  end.

Definition is_primitive (v : JsonLikeValue) : bool :=
  match v with
  | JNull | JBoolean _ | JNumber _ | JString _ => true
  | _ => false
  end.

(** [JsonValue]: no [undefined] anywhere in the tree, at any depth. *)
Fixpoint JsonValue (v : JsonLikeValue) : Prop :=
  match v with
  | JUndefined => False
  | JNull | JBoolean _ | JNumber _ | JString _ => True
  | JArray elements =>
      (fix all (l : list JsonLikeValue) : Prop :=
         match l with
         | [] => True
         | e :: l' => JsonValue e ∧ all l'
         end) elements
  | JObject properties =>
      (fix all (l : JsonLikeObject) : Prop :=
         match l with
         | [] => True
         | kv :: l' => JsonValue kv.2 ∧ all l'
         end) properties
  end.

(** The same test as a program: does [undefined] occur in the tree? *)
Fixpoint contains_undefined (v : JsonLikeValue) : bool :=
  match v with
  | JUndefined => true
  | JNull | JBoolean _ | JNumber _ | JString _ => false
  | JArray elements => existsb contains_undefined elements
  | JObject properties => existsb (λ kv, contains_undefined kv.2) properties
  end.

(** ** Objects: own properties in enumeration order

    [OrdinaryOwnPropertyKeys] lists the keys that are array indices first, in
    ascending numeric order, and then the other string keys in the order in
    which they were created.  The property list of an object is kept in that
    order, so [Object_keys] is the list of its first components, and
    [js_set] puts a new key where the enumeration will show it. *)

(** A key is an array index when it is the canonical decimal spelling of an
    integer in [0, 2^32 - 2]. *)
Definition array_index (key : string) : option N :=
  match NilEmpty.uint_of_string key with
  | Some d =>
      let n := N.of_uint d in
      if String.eqb (NilEmpty.string_of_uint (N.to_uint n)) key
         && (n <=? 4294967294)%N
      then Some n else None
  | None => None
  end.

Definition Object_keys (o : JsonLikeObject) : list string := o.*1.

(** [Object.prototype.hasOwnProperty.call(o, key)] *)
Definition hasOwnProperty (o : JsonLikeObject) (key : string) : bool :=
  existsb (λ kv, String.eqb kv.1 key) o.

(** [o[key]] for a plain object: the own property, else [undefined]. *)
Fixpoint js_get (o : JsonLikeObject) (key : string) : JsonLikeValue :=
  match o with
  | [] => JUndefined
  | (k, v) :: o' => if String.eqb k key then v else js_get o' key
  end.

Fixpoint replace_property (key : string) (v : JsonLikeValue)
    (o : JsonLikeObject) : JsonLikeObject :=
  match o with
  | [] => []
  | (k, x) :: o' =>
      if String.eqb k key then (k, v) :: o'
      else (k, x) :: replace_property key v o'
  end.

Fixpoint insert_index (n : N) (key : string) (v : JsonLikeValue)
    (o : JsonLikeObject) : JsonLikeObject :=
  match o with
  | [] => [(key, v)]
  | (k, x) :: o' =>
      match array_index k with
      | Some m =>
          if (m <? n)%N then (k, x) :: insert_index n key v o'
          else (key, v) :: o
      | None => (key, v) :: o
      end
  end.

(** [o[key] = v] on a plain object: an existing property keeps its place, a
    new array index goes among the indices, any other new key goes last. *)
Definition js_set (o : JsonLikeObject) (key : string) (v : JsonLikeValue)
    : JsonLikeObject :=
  if hasOwnProperty o key then replace_property key v o
  else match array_index key with
       | Some n => insert_index n key v o
       | None => o ++ [(key, v)]
       end.

(** ** [Array.prototype.sort] on the keys *)

Definition compare_fn := string → string → Z.

(** Without a comparator the keys are compared as strings, code unit by
    code unit. *)
Definition default_compare (x y : string) : Z :=
  if String.ltb x y then -1
  else if String.ltb y x then 1
  else 0.

Definition SortCompare (compareFn : option compare_fn) : compare_fn :=
  match compareFn with
  | Some f => f
  | None => default_compare
  end.

(** The sort is stable; it is written as the insertion sort, which every
    conforming engine agrees with whenever the comparator is consistent. *)
Fixpoint sort_insert (cmp : compare_fn) (x : string) (l : list string)
    : list string :=
  match l with
  | [] => [x]
  | y :: l' => if cmp x y <=? 0 then x :: l else y :: sort_insert cmp x l'
  end.

Definition Array_sort (cmp : compare_fn) (l : list string) : list string :=
  foldr (sort_insert cmp) [] l.

(** ** [canonicalize.ts] *)

(** The body of the loop over [sortedKeys].  [canonical_of] hands out the
    canonical form of the property read from [value]. *)
Definition canonicalize_step (value : JsonLikeObject)
    (canonical_of : string → JsonLikeValue)
    (newObj : JsonLikeObject) (key : string) : JsonLikeObject :=
  if hasOwnProperty value key then
    match js_get value key with
    | JUndefined => newObj
    | _ => js_set newObj key (canonical_of key)
    end
  else newObj.

(** [canonicalize(value, compareFn)].  The recursive call on [value[key]] is
    made through the table of the canonical forms of the properties of
    [value], which keeps the recursion structural; [canonicalize_object]
    below restates the object case with the call written as in the source. *)
Fixpoint canonicalize (value : JsonLikeValue) (compareFn : option compare_fn)
    {struct value} : JsonLikeValue :=
  match value with
  | JUndefined => JNull
  | JNull | JBoolean _ | JNumber _ | JString _ => value
  | JArray elements =>
      JArray
        ((fix loop (newArray rest : list JsonLikeValue) {struct rest} :=
            match rest with
            | [] => newArray
            | element :: rest' =>
                loop (newArray ++ [canonicalize element compareFn]) rest'
            end) [] elements)
  | JObject properties =>
      let sortedKeys :=
        Array_sort (SortCompare compareFn) (Object_keys properties) in
      let table :=
        (fix each (l : JsonLikeObject) : JsonLikeObject :=
           match l with
           | [] => []
           | (k, v) :: l' => (k, canonicalize v compareFn) :: each l'
           end) properties in
      JObject
        (fold_left (canonicalize_step properties (js_get table)) sortedKeys [])
  end.

(** ** Canonical forms *)

Definition is_undefined (v : JsonLikeValue) : bool :=
  match v with
  | JUndefined => true
  | _ => false
  end.

(** The order in which an object enumerates its keys: the array indices
    first, by value; then the other keys, related by [named_before]. *)
Definition key_order (named_before : relation string) (a b : string) : Prop :=
  match array_index a, array_index b with
  | Some m, Some n => (m < n)%N
  | Some _, None => True
  | None, Some _ => False
  | None, None => named_before a b
  end.

(** The keys of any object: array indices first, no key twice. *)
Definition enumeration_order : relation string := key_order (λ a b, a ≠ b).

(** The keys of a canonical object, sorted with the default comparison: the
    other keys are in the order of the strings. *)
Definition key_before : relation string :=
  key_order (λ a b, String.le a b ∧ a ≠ b).

Definition is_named (key : string) : bool :=
  match array_index key with
  | Some _ => false
  | None => true
  end.

(** A value in canonical form (default comparison): no [undefined], and
    every object enumerates its keys in the order [key_before]. *)
Fixpoint canonical (v : JsonLikeValue) : Prop :=
  match v with
  | JUndefined => False
  | JNull | JBoolean _ | JNumber _ | JString _ => True
  | JArray elements =>
      (fix all (l : list JsonLikeValue) : Prop :=
         match l with
         | [] => True
         | e :: l' => canonical e ∧ all l'
         end) elements
  | JObject properties =>
      StronglySorted key_before (Object_keys properties)
      ∧ (fix all (l : JsonLikeObject) : Prop :=
           match l with
           | [] => True
           | kv :: l' => canonical kv.2 ∧ all l'
           end) properties
  end.

(** ** Comparators *)

(** A consistent comparator, as [Array.prototype.sort] wants it: swapping
    the arguments swaps the sign, and the order it induces is transitive. *)
Definition consistent_comparator (cmp : compare_fn) : Prop :=
  (∀ a b, Z.sgn (cmp b a) = - Z.sgn (cmp a b))
  ∧ (∀ a b c, cmp a b ≤ 0 → cmp b c ≤ 0 → cmp a c ≤ 0).

(** A comparator that never finds two different keys equal. *)
Definition separating_comparator (cmp : compare_fn) : Prop :=
  ∀ a b, cmp a b = 0 → a = b.

(** The reverse of the default comparison. *)
Definition reverse_compare : compare_fn := λ a b, default_compare b a.

(** The order in which the result of [canonicalize] enumerates its keys when
    the keys are sorted with [cmp]. *)
Definition sorted_before (cmp : compare_fn) : relation string :=
  key_order (λ a b, cmp a b ≤ 0 ∧ a ≠ b).

(** A value in canonical form for the comparator [cmp]. *)
Fixpoint canonical_by (cmp : compare_fn) (v : JsonLikeValue) : Prop :=
  match v with
  | JUndefined => False
  | JNull | JBoolean _ | JNumber _ | JString _ => True
  | JArray elements =>
      (fix all (l : list JsonLikeValue) : Prop :=
         match l with
         | [] => True
         | e :: l' => canonical_by cmp e ∧ all l'
         end) elements
  | JObject properties =>
      StronglySorted (sorted_before cmp) (Object_keys properties)
      ∧ (fix all (l : JsonLikeObject) : Prop :=
           match l with
           | [] => True
           | kv :: l' => canonical_by cmp kv.2 ∧ all l'
           end) properties
  end.

(** A value that lists its keys in canonical order already: in every object
    no key comes twice, and the keys whose value is not [undefined] come in
    the order [key_before]. *)
Fixpoint presorted (v : JsonLikeValue) : Prop :=
  match v with
  | JUndefined | JNull | JBoolean _ | JNumber _ | JString _ => True
  | JArray elements =>
      (fix all (l : list JsonLikeValue) : Prop :=
         match l with
         | [] => True
         | e :: l' => presorted e ∧ all l'
         end) elements
  | JObject properties =>
      NoDup (Object_keys properties)
      ∧ StronglySorted key_before
          (Object_keys
             (filter (λ kv, is_undefined kv.2 = false) properties))
      ∧ (fix all (l : JsonLikeObject) : Prop :=
           match l with
           | [] => True
           | kv :: l' => presorted kv.2 ∧ all l'
           end) properties
  end.

(** The values whose canonical string is [null]: [undefined], [null] and the
    numbers that are not finite. *)
Definition written_as_null (v : JsonLikeValue) : bool :=
  match v with
  | JUndefined | JNull | JNumber (NaN | Infinity | NegInfinity) => true
  | _ => false
  end.

(** ** The JSON codec of the runtime: [JSON.stringify]

    The text is handled as the list of its code units. *)

Definition chars (s : string) : list ascii := list_ascii_of_string s.

Definition quotation_mark : ascii := "034"%char.
Definition reverse_solidus : ascii := "\"%char.
Definition line_feed : ascii := "010"%char.

Definition hex_digit (n : N) : ascii :=
  ascii_of_N (if (n <? 10)%N then 48 + n else 87 + n)%N.

(** One code unit inside [QuoteJSONString]. *)
Definition quote_code_unit (c : ascii) : list ascii :=
  let n := N_of_ascii c in
  if (n =? 8)%N then chars "\b"
  else if (n =? 9)%N then chars "\t"
  else if (n =? 10)%N then chars "\n"
  else if (n =? 12)%N then chars "\f"
  else if (n =? 13)%N then chars "\r"
  else if (n =? 34)%N then [reverse_solidus; quotation_mark]
  else if (n =? 92)%N then [reverse_solidus; reverse_solidus]
  else if (n <? 32)%N then
    chars "\u00" ++ [hex_digit (n / 16); hex_digit (n mod 16)]
  else [c].

Definition QuoteJSONString (s : string) : list ascii :=
  quotation_mark :: concat (map quote_code_unit (chars s)) ++ [quotation_mark].

Definition decimal_digits (n : N) : list ascii :=
  chars (NilEmpty.string_of_uint (N.to_uint n)).

(** [Number::toString] on the integers (plain digits, as for every integer
    below [10^21] in magnitude). *)
Definition Number_toString (z : Z) : list ascii :=
  if z <? 0 then "-"%char :: decimal_digits (Z.to_N (- z))
  else decimal_digits (Z.to_N z).

(** A number as [SerializeJSONProperty] writes it: a finite number by
    [Number::toString], which spells [-0] as [0]; the others as [null]. *)
Definition serialize_number (n : number) : list ascii :=
  match n with
  | Int z => Number_toString z
  | NegZero => chars "0"
  | NaN | Infinity | NegInfinity => chars "null"
  end.

Fixpoint join (separator : list ascii) (parts : list (list ascii))
    : list ascii :=
  match parts with
  | [] => []
  | [p] => p
  | p :: parts' => p ++ separator ++ join separator parts'
  end.

(** The common end of [SerializeJSONArray] and [SerializeJSONObject]. *)
Definition wrap_partial (opening closing : ascii)
    (gap stepback indent : list ascii) (partial : list (list ascii))
    : list ascii :=
  match partial with
  | [] => [opening; closing]
  | _ =>
      match gap with
      | [] => opening :: join (chars ",") partial ++ [closing]
      | _ =>
          opening :: line_feed :: indent
            ++ join ("," %char :: line_feed :: indent) partial
            ++ line_feed :: stepback ++ [closing]
      end
  end.

(** [SerializeJSONProperty]; [None] is the result [undefined]. *)
Fixpoint SerializeJSONProperty (gap indent : list ascii) (v : JsonLikeValue)
    {struct v} : option (list ascii) :=
  match v with
  | JUndefined => None
  | JNull => Some (chars "null")
  | JBoolean true => Some (chars "true")
  | JBoolean false => Some (chars "false")
  | JNumber n => Some (serialize_number n)
  | JString s => Some (QuoteJSONString s)
  | JArray elements =>
      let stepback := indent in
      let indent := indent ++ gap in
      let partial :=
        (fix each (l : list JsonLikeValue) : list (list ascii) :=
           match l with
           | [] => []
           | e :: l' =>
               match SerializeJSONProperty gap indent e with
               | Some strP => strP
               | None => chars "null"
               end :: each l'
           end) elements in
      Some (wrap_partial "["%char "]"%char gap stepback indent partial)
  | JObject properties =>
      let stepback := indent in
      let indent := indent ++ gap in
      let partial :=
        (fix each (l : JsonLikeObject) : list (list ascii) :=
           match l with
           | [] => []
           | (P, x) :: l' =>
               match SerializeJSONProperty gap indent x with
               | Some strP =>
                   (QuoteJSONString P ++ ":"%char
                      :: match gap with [] => [] | _ => [" "%char] end
                      ++ strP) :: each l'
               | None => each l'
               end
           end) properties in
      Some (wrap_partial "{"%char "}"%char gap stepback indent partial)
  end.

(** The text of a value when there is no [gap]: what
    [SerializeJSONProperty] returns for a [JsonValue], in one piece. *)
Fixpoint compact (v : JsonLikeValue) : list ascii :=
  match v with
  | JUndefined | JNull => chars "null"
  | JBoolean true => chars "true"
  | JBoolean false => chars "false"
  | JNumber n => serialize_number n
  | JString s => QuoteJSONString s
  | JArray elements =>
      wrap_partial "["%char "]"%char [] [] []
        ((fix each (l : list JsonLikeValue) : list (list ascii) :=
            match l with
            | [] => []
            | e :: l' => compact e :: each l'
            end) elements)
  | JObject properties =>
      wrap_partial "{"%char "}"%char [] [] []
        ((fix each (l : JsonLikeObject) : list (list ascii) :=
            match l with
            | [] => []
            | (P, x) :: l' =>
                (QuoteJSONString P ++ ":"%char :: compact x) :: each l'
            end) properties)
  end.




(** The optional third argument of [JSON.stringify]. *)
Inductive space_argument : Type :=
  | SpaceNumber (n : number)
  | SpaceString (s : string).

Definition gap_of (space : option space_argument) : list ascii :=
  match space with
  | None => []
  | Some (SpaceNumber n) =>
      match n with
      | Int z => replicate (Z.to_nat (Z.min 10 z)) " "%char
      | Infinity => replicate 10 " "%char
      | NaN | NegZero | NegInfinity => []
      end
  | Some (SpaceString s) => take 10 (chars s)
  end.

(** [JSON.stringify(value, null, space)]; [None] is the result [undefined]. *)
Definition JSON_stringify (value : JsonLikeValue)
    (space : option space_argument) : option string :=
  string_of_list_ascii <$> SerializeJSONProperty (gap_of space) [] value.

(** ** Errors and completions *)

(** What a [throw] carries: a [SyntaxError], or an error of another class. *)
Inductive js_error : Type :=
  | SyntaxError (message : string)
  | OtherError (name message : string).

Inductive completion (A : Type) : Type :=
  | Return (a : A)
  | Throw (e : js_error).
Global Arguments Return {A} a.
Global Arguments Throw {A} e.

(** ** The JSON codec of the runtime: [JSON.parse]

    A reference reader for the texts of the embedding.  A number literal
    with a fraction or an exponent, and a [\u] escape above 0xFF, denote
    values that the embedding does not have; the reader reports them as
    [Unsupported] instead of guessing.  [OutOfFuel] is there for the
    recursion only: [JSON_parse_reference_fuel] shows that it is never the
    result. *)

Inductive parsed (A : Type) : Type :=
  | Ok (a : A) (rest : list ascii)
  | Malformed (message : string)
  | Unsupported
  | OutOfFuel.
Global Arguments Ok {A} a rest.
Global Arguments Malformed {A} message.
Global Arguments Unsupported {A}.
Global Arguments OutOfFuel {A}.

Definition is_whitespace (c : ascii) : bool :=
  let n := N_of_ascii c in
  (n =? 9)%N || (n =? 10)%N || (n =? 13)%N || (n =? 32)%N.

Fixpoint skip_whitespace (t : list ascii) : list ascii :=
  match t with
  | c :: t' => if is_whitespace c then skip_whitespace t' else t
  | [] => []
  end.

Definition is_digit (c : ascii) : bool :=
  let n := N_of_ascii c in (48 <=? n)%N && (n <=? 57)%N.

Definition hex_value (c : ascii) : option N :=
  let n := N_of_ascii c in
  if (48 <=? n)%N && (n <=? 57)%N then Some (n - 48)%N
  else if (97 <=? n)%N && (n <=? 102)%N then Some (n - 87)%N
  else if (65 <=? n)%N && (n <=? 70)%N then Some (n - 55)%N
  else None.

(** The code unit that a one-letter escape stands for. *)
Definition simple_escape (e : ascii) : option ascii :=
  let n := N_of_ascii e in
  if (n =? 34)%N then Some quotation_mark
  else if (n =? 92)%N then Some reverse_solidus
  else if (n =? 47)%N then Some "/"%char
  else if (n =? 98)%N then Some "008"%char
  else if (n =? 102)%N then Some "012"%char
  else if (n =? 110)%N then Some "010"%char
  else if (n =? 114)%N then Some "013"%char
  else if (n =? 116)%N then Some "009"%char
  else None.

(** The code units of a string literal, from after the opening quotation
    mark up to the closing one. *)
Fixpoint parse_string_chars (t : list ascii) : parsed string :=
  match t with
  | [] => Malformed "Unterminated string in JSON"
  | c :: t' =>
      if Ascii.eqb c quotation_mark then Ok "" t'
      else if Ascii.eqb c reverse_solidus then
        match t' with
        | [] => Malformed "Unterminated string in JSON"
        | e :: t'' =>
            match simple_escape e with
            | Some c' =>
                match parse_string_chars t'' with
                | Ok s rest => Ok (String c' s) rest
                | other => other
                end
            | None =>
                if Ascii.eqb e "u"%char then
                  match t'' with
                  | h1 :: h2 :: h3 :: h4 :: t3 =>
                      match hex_value h1, hex_value h2,
                            hex_value h3, hex_value h4 with
                      | Some d1, Some d2, Some d3, Some d4 =>
                          let n := (((d1 * 16 + d2) * 16 + d3) * 16 + d4)%N in
                          if (n <? 256)%N then
                            match parse_string_chars t3 with
                            | Ok s rest => Ok (String (ascii_of_N n) s) rest
                            | other => other
                            end
                          else Unsupported
                      | _, _, _, _ => Malformed "Bad Unicode escape in JSON"
                      end
                  | _ => Malformed "Bad Unicode escape in JSON"
                  end
                else Malformed "Bad escaped character in JSON"
            end
        end
      else if (N_of_ascii c <? 32)%N then
        Malformed "Bad control character in string literal in JSON"
      else
        match parse_string_chars t' with
        | Ok s rest => Ok (String c s) rest
        | other => other
        end
  end.

Fixpoint span_digits (t : list ascii) : list ascii * list ascii :=
  match t with
  | c :: t' =>
      if is_digit c then
        let '(digits, rest) := span_digits t' in (c :: digits, rest)
      else ([], t)
  | [] => ([], [])
  end.

Definition signed_number (negative : bool) (n : N) : number :=
  if negative then (if (n =? 0)%N then NegZero else Int (- Z.of_N n))
  else Int (Z.of_N n).

(** A number literal: an optional minus sign and the canonical spelling of
    a natural number ([0], or digits that do not start with [0]). *)
Definition parse_number (t : list ascii) : parsed number :=
  let '(negative, t1) :=
    match t with
    | c :: t' => if Ascii.eqb c "-"%char then (true, t') else (false, t)
    | [] => (false, t)
    end in
  let '(digits, rest) := span_digits t1 in
  match NilEmpty.uint_of_string (string_of_list_ascii digits) with
  | Some d =>
      let n := N.of_uint d in
      if String.eqb (NilEmpty.string_of_uint (N.to_uint n))
           (string_of_list_ascii digits)
      then
        match rest with
        | c :: _ =>
            if Ascii.eqb c "."%char || Ascii.eqb c "e"%char
               || Ascii.eqb c "E"%char
            then Unsupported
            else Ok (signed_number negative n) rest
        | [] => Ok (signed_number negative n) rest
        end
      else Malformed "Unexpected number in JSON"
  | None => Malformed "No number after minus sign in JSON"
  end.

Definition parse_literal (word : string) (v : JsonLikeValue)
    (t : list ascii) : parsed JsonLikeValue :=
  let w := chars word in
  if bool_decide (take (length w) t = w) then Ok v (drop (length w) t)
  else Malformed "Unexpected token in JSON".

(** The recursive descent.  Every recursive call is on a text that is
    shorter by one code unit at least, with one unit of fuel less, so a
    fuel above the length of the text is never used up.  An object is built
    as [JSON.parse] builds it, by defining its properties in the order of
    the text. *)
Fixpoint parse_value (fuel : nat) (t : list ascii) {struct fuel}
    : parsed JsonLikeValue :=
  match fuel with
  | O => OutOfFuel
  | S fuel =>
      match skip_whitespace t with
      | [] => Malformed "Unexpected end of JSON input"
      | c :: t1 =>
          if Ascii.eqb c "["%char then
            match skip_whitespace t1 with
            | [] => Malformed "Unexpected end of JSON input"
            | c1 :: t2 =>
                if Ascii.eqb c1 "]"%char then Ok (JArray []) t2
                else
                  match parse_value fuel t1 with
                  | Ok v t3 => parse_elements fuel t3 [v]
                  | other => other
                  end
            end
          else if Ascii.eqb c "{"%char then
            match skip_whitespace t1 with
            | [] => Malformed "Unexpected end of JSON input"
            | c1 :: t2 =>
                if Ascii.eqb c1 "}"%char then Ok (JObject []) t2
                else parse_members fuel t1 []
            end
          else if Ascii.eqb c quotation_mark then
            match parse_string_chars t1 with
            | Ok s rest => Ok (JString s) rest
            | Malformed m => Malformed m
            | Unsupported => Unsupported
            | OutOfFuel => OutOfFuel
            end
          else if Ascii.eqb c "-"%char || is_digit c then
            match parse_number (c :: t1) with
            | Ok n rest => Ok (JNumber n) rest
            | Malformed m => Malformed m
            | Unsupported => Unsupported
            | OutOfFuel => OutOfFuel
            end
          else if Ascii.eqb c "t"%char then
            parse_literal "true" (JBoolean true) (c :: t1)
          else if Ascii.eqb c "f"%char then
            parse_literal "false" (JBoolean false) (c :: t1)
          else if Ascii.eqb c "n"%char then
            parse_literal "null" JNull (c :: t1)
          else Malformed "Unexpected token in JSON"
      end
  end
with parse_elements (fuel : nat) (t : list ascii)
    (elements : list JsonLikeValue) {struct fuel} : parsed JsonLikeValue :=
  match fuel with
  | O => OutOfFuel
  | S fuel =>
      match skip_whitespace t with
      | [] => Malformed "Unexpected end of JSON input"
      | c :: t1 =>
          if Ascii.eqb c "]"%char then Ok (JArray elements) t1
          else if Ascii.eqb c ","%char then
            match parse_value fuel t1 with
            | Ok v t2 => parse_elements fuel t2 (elements ++ [v])
            | other => other
            end
          else Malformed "Unexpected token in JSON"
      end
  end
with parse_members (fuel : nat) (t : list ascii)
    (object : JsonLikeObject) {struct fuel} : parsed JsonLikeValue :=
  match fuel with
  | O => OutOfFuel
  | S fuel =>
      match skip_whitespace t with
      | [] => Malformed "Unexpected end of JSON input"
      | c :: t1 =>
          if Ascii.eqb c quotation_mark then
            match parse_string_chars t1 with
            | Ok key t2 =>
                match skip_whitespace t2 with
                | [] => Malformed "Unexpected end of JSON input"
                | c2 :: t3 =>
                    if Ascii.eqb c2 ":"%char then
                      match parse_value fuel t3 with
                      | Ok v t4 =>
                          let object := js_set object key v in
                          match skip_whitespace t4 with
                          | [] => Malformed "Unexpected end of JSON input"
                          | c4 :: t5 =>
                              if Ascii.eqb c4 "}"%char then
                                Ok (JObject object) t5
                              else if Ascii.eqb c4 ","%char then
                                parse_members fuel t5 object
                              else Malformed "Unexpected token in JSON"
                          end
                      | other => other
                      end
                    else Malformed "Unexpected token in JSON"
                end
            | Malformed m => Malformed m
            | Unsupported => Unsupported
            | OutOfFuel => OutOfFuel
            end
          else Malformed "Unexpected token in JSON"
      end
  end.

(** [JSON.parse(text)] without a reviver. *)
Definition JSON_parse_reference (text : string) : completion JsonLikeValue :=
  let t := chars text in
  match parse_value (S (length t)) t with
  | Ok v rest =>
      match skip_whitespace rest with
      | [] => Return v
      | _ :: _ =>
          Throw (SyntaxError "Unexpected non-whitespace character after JSON")
      end
  | Malformed message => Throw (SyntaxError message)
  | Unsupported => Throw (OtherError "Unsupported" "value outside the embedding")
  | OutOfFuel => Throw (OtherError "Unsupported" "fuel")
  end.

(** ** Reading a text back: the notions of the proof *)


(** What may follow a value in a text without white space. *)
Definition delimited (rest : list ascii) : bool :=
  match rest with
  | [] => true
  | c :: _ =>
      Ascii.eqb c ","%char || Ascii.eqb c "]"%char || Ascii.eqb c "}"%char
  end.

(** The text of a property, and of what follows the first element of an
    array or the first property of an object. *)
Definition member_text (kv : string * JsonLikeValue) : list ascii :=
  QuoteJSONString kv.1 ++ ":"%char :: compact kv.2.

Definition elements_tail (l : list JsonLikeValue) : list ascii :=
  concat (map (λ e, ","%char :: compact e) l).

Definition members_tail (o : JsonLikeObject) : list ascii :=
  concat (map (λ kv, ","%char :: member_text kv) o).


(** A text written with ['] where the text has the quotation mark. *)
Definition json_text (s : string) : string :=
  string_of_list_ascii
    (map (λ c, if Ascii.eqb c "'"%char then quotation_mark else c) (chars s)).

(** A result of the reader that is not [OutOfFuel] and that, when it is a
    value, leaves less text than there was. *)
Definition consumes {A} (r : parsed A) (t : list ascii) : Prop :=
  r ≠ OutOfFuel
  ∧ ∀ a rest, r = Ok a rest → (length rest < length t)%nat.

(** ** [stringify.ts] *)

(** [createCanonicalJsonString(item, canonicalizer = canonicalize, space?)].
    An omitted argument is [None]. *)
Definition createCanonicalJsonString (item : JsonLikeValue)
    (canonicalizer : option (JsonLikeValue → JsonLikeValue))
    (space : option space_argument) : option string :=
  let canonicalizer :=
    match canonicalizer with
    | Some f => f
    | None => λ item, canonicalize item None
    end in
  let canonicalItem := canonicalizer item in
  JSON_stringify canonicalItem space.

(** ** [dedupe.ts] *)

(** The loop of [dedupeBy]: [seen] is the [Set] of keys, [uniqueItems] the
    array under construction.  The key type is the type of whatever the
    stringifier returns. *)
Definition dedupeBy_step {T K : Type} `{Countable K} (stringifier : T → K)
    (state : gset K * list T) (item : T) : gset K * list T :=
  let '(seen, uniqueItems) := state in
  let key := stringifier item in
  if decide (key ∈ seen) then (seen, uniqueItems)
  else ({[key]} ∪ seen, uniqueItems ++ [item]).

Definition dedupeBy {T K : Type} `{Countable K} (items : list T)
    (stringifier : T → K) : list T :=
  (fold_left (dedupeBy_step stringifier) items (∅, [])).2.

Definition semanticDedupe (items : list JsonLikeValue) : list JsonLikeValue :=
  dedupeBy items (λ item, createCanonicalJsonString item None None).

(** ** [compare.ts] *)

(** An argument as the caller passes it: the value, and for an array or an
    object the identity of the object that the reference designates.  Two
    arguments that designate the same object have the same [object_id]. *)
Record argument : Type := Argument {
  object_id : nat;
  value_of : JsonLikeValue;
}.

Definition is_object (v : JsonLikeValue) : bool :=
  match v with
  | JArray _ | JObject _ => true
  | _ => false
  end.

(** Two references to one object show the same tree. *)
Definition same_object (a b : argument) : Prop :=
  is_object (value_of a) = true ∧ is_object (value_of b) = true
  ∧ object_id a = object_id b.

Definition aliasing_consistent (a b : argument) : Prop :=
  same_object a b → value_of a = value_of b.

(** [x === y] on numbers: [NaN] equals nothing, [-0] equals [0]. *)
Definition Number_equal (x y : number) : bool :=
  match x, y with
  | NaN, _ | _, NaN => false
  | Infinity, Infinity => true
  | NegInfinity, NegInfinity => true
  | (NegZero | Int 0), (NegZero | Int 0) => true
  | Int a, Int b => a =? b
  | _, _ => false
  end.

(** [a === b]: by value on the primitives, by identity on the objects. *)
Definition IsStrictlyEqual (a b : argument) : bool :=
  match value_of a, value_of b with
  | JUndefined, JUndefined => true
  | JNull, JNull => true
  | JBoolean x, JBoolean y => Bool.eqb x y
  | JNumber x, JNumber y => Number_equal x y
  | JString x, JString y => String.eqb x y
  | (JArray _ | JObject _), (JArray _ | JObject _) =>
      Nat.eqb (object_id a) (object_id b)
  | _, _ => false
  end.

Definition semanticEquals (a b : argument) : bool :=
  if IsStrictlyEqual a b then true
  else bool_decide (createCanonicalJsonString (value_of a) None None
                    = createCanonicalJsonString (value_of b) None None).

(** ** [parse.ts] *)

(** The text that a template literal makes of an error:
    [Error.prototype.toString]. *)
Definition error_to_string (e : js_error) : string :=
  let '(name, message) :=
    match e with
    | SyntaxError message => ("SyntaxError", message)
    | OtherError name message => (name, message)
    end in
  if String.eqb name "" then message
  else if String.eqb message "" then name
  else name +:+ ": " +:+ message.

(** The result object of [safeParse]. *)
Inductive safeParse_result : Type :=
  | Success (data : JsonLikeValue)
  | Failure (error : js_error).

Section parse.
(** [JSON.parse] is the runtime's: [parse] and [safeParse] are wrappers
    around it, whatever it does. *)
Variable JSON_parse : string → completion JsonLikeValue.

Definition parse (jsonString : string) : completion JsonLikeValue :=
  match JSON_parse jsonString with
  | Return parsedData => Return parsedData
  | Throw e => Throw e
  end.

Definition safeParse (jsonString : string) : completion safeParse_result :=
  match parse jsonString with
  | Return data => Return (Success data)
  | Throw error =>
      match error with
      | SyntaxError _ => Return (Failure error)
      | _ =>
          Return
            (Failure
               (SyntaxError
                  ("Unknown parsing error: " +:+ error_to_string error)))
      end
  end.
End parse.

(* ================================================================= *)
(** * Properties *)

(** ** Unfolding equations *)

Lemma JsonValue_array elements :
  JsonValue (JArray elements) ↔ Forall JsonValue elements.
Proof.
  induction elements as [|e l IH]; simpl in *.
  - split; [constructor | done].
  - rewrite Forall_cons. by rewrite <- IH.
Qed.

Lemma JsonValue_object properties :
  JsonValue (JObject properties) ↔ Forall (λ kv, JsonValue kv.2) properties.
Proof.
  induction properties as [|kv l IH]; simpl in *.
  - split; [constructor | done].
  - rewrite Forall_cons. by rewrite <- IH.
Qed.

Lemma contains_undefined_spec v : contains_undefined v = false ↔ JsonValue v.
Proof.
  induction v as [| | | | |l IH|o IH] using JsonLikeValue_nested_ind;
    try (simpl; split; done).
  - rewrite JsonValue_array. simpl.
    induction IH as [|e l He _ IHl]; simpl.
    + split; [constructor | done].
    + rewrite orb_false_iff, Forall_cons, He, IHl. done.
  - rewrite JsonValue_object. simpl.
    induction IH as [|e l He _ IHl]; simpl.
    + split; [constructor | done].
    + rewrite orb_false_iff, Forall_cons, He, IHl. done.
Qed.

Lemma canonicalize_loop_array (f : JsonLikeValue → JsonLikeValue) acc l :
  (fix loop (newArray rest : list JsonLikeValue) {struct rest} :=
     match rest with
     | [] => newArray
     | element :: rest' => loop (newArray ++ [f element]) rest'
     end) acc l = acc ++ map f l.
Proof.
  revert acc. induction l as [|e l IH]; intros acc; simpl.
  - by rewrite app_nil_r.
  - rewrite IH. by rewrite <- app_assoc.
Qed.

Lemma canonicalize_array elements compareFn :
  canonicalize (JArray elements) compareFn =
  JArray (map (λ element, canonicalize element compareFn) elements).
Proof. simpl. by rewrite canonicalize_loop_array. Qed.

Lemma hasOwnProperty_elem_of o key :
  hasOwnProperty o key = true ↔ key ∈ Object_keys o.
Proof.
  unfold hasOwnProperty, Object_keys.
  induction o as [|[k v] o IH]; simpl.
  - split; [done | by intros ?%elem_of_nil].
  - rewrite orb_true_iff, elem_of_cons, IH, String.eqb_eq.
    split; (intros [?|?]; [left; congruence | by right]).
Qed.

Lemma js_get_table (f : JsonLikeValue → JsonLikeValue) o key :
  hasOwnProperty o key = true →
  js_get ((fix each (l : JsonLikeObject) : JsonLikeObject :=
             match l with
             | [] => []
             | (k, v) :: l' => (k, f v) :: each l'
             end) o) key = f (js_get o key).
Proof.
  unfold hasOwnProperty.
  induction o as [|[k v] o IH]; simpl; [done|].
  destruct (String.eqb k key); simpl; auto.
Qed.

Lemma canonicalize_step_ext value f g newObj key :
  (hasOwnProperty value key = true → f key = g key) →
  canonicalize_step value f newObj key = canonicalize_step value g newObj key.
Proof.
  intros Hfg. unfold canonicalize_step.
  destruct (hasOwnProperty value key); [|done].
  by rewrite Hfg.
Qed.

Lemma fold_left_canonicalize_step_ext value f g keys newObj :
  (∀ key, hasOwnProperty value key = true → f key = g key) →
  fold_left (canonicalize_step value f) keys newObj =
  fold_left (canonicalize_step value g) keys newObj.
Proof.
  intros Hfg. revert newObj.
  induction keys as [|key keys IH]; intros newObj; simpl; [done|].
  rewrite IH. f_equal. apply canonicalize_step_ext. auto.
Qed.

(** The object case with the recursive call written as in the source:
    [newObj[key] = canonicalize(value[key], compareFn)]. *)
Lemma canonicalize_object properties compareFn :
  canonicalize (JObject properties) compareFn =
  JObject
    (fold_left
       (canonicalize_step properties
          (λ key, canonicalize (js_get properties key) compareFn))
       (Array_sort (SortCompare compareFn) (Object_keys properties)) []).
Proof.
  simpl. f_equal. apply fold_left_canonicalize_step_ext.
  intros key Hkey. by apply (js_get_table (λ v, canonicalize v compareFn)).
Qed.

(** ** Properties of [js_set] and [js_get] *)

Lemma Forall_replace_property (P : string * JsonLikeValue → Prop) key v o :
  (∀ k, P (k, v)) → Forall P o → Forall P (replace_property key v o).
Proof.
  intros Hv. induction 1 as [|[k x] o Hx Ho IH]; simpl; [constructor|].
  destruct (String.eqb k key); constructor; auto.
Qed.

Lemma Forall_insert_index (P : string * JsonLikeValue → Prop) n key v o :
  P (key, v) → Forall P o → Forall P (insert_index n key v o).
Proof.
  intros Hv. induction 1 as [|[k x] o Hx Ho IH]; simpl.
  - by repeat constructor.
  - destruct (array_index k) as [m|]; [destruct (m <? n)%N|];
      repeat constructor; auto.
Qed.

Lemma Forall_js_set (P : string * JsonLikeValue → Prop) o key v :
  (∀ k, P (k, v)) → Forall P o → Forall P (js_set o key v).
Proof.
  intros Hv Ho. unfold js_set.
  destruct (hasOwnProperty o key).
  - by apply Forall_replace_property.
  - destruct (array_index key).
    + by apply Forall_insert_index.
    + apply Forall_app. split; [done|]. by repeat constructor.
Qed.

Lemma js_get_elem_of o key :
  hasOwnProperty o key = true → (key, js_get o key) ∈ o.
Proof.
  unfold hasOwnProperty.
  induction o as [|[k v] o IH]; simpl; [done|].
  destruct (String.eqb k key) eqn:E; simpl.
  - apply String.eqb_eq in E as ->. intros _. by left.
  - intros H. right. auto.
Qed.

(** ** The result of [canonicalize] is a [JsonValue] *)

Lemma canonicalize_primitive v compareFn :
  is_primitive v = true → canonicalize v compareFn = v.
Proof. by destruct v. Qed.

Lemma canonicalize_not_undefined v compareFn :
  canonicalize v compareFn ≠ JUndefined.
Proof. by destruct v. Qed.

Lemma fold_left_canonicalize_step_Forall
    (P : string * JsonLikeValue → Prop) value f keys newObj :
  (∀ key k, hasOwnProperty value key = true →
            js_get value key ≠ JUndefined → P (k, f key)) →
  Forall P newObj →
  Forall P (fold_left (canonicalize_step value f) keys newObj).
Proof.
  intros Hf. revert newObj.
  induction keys as [|key keys IH]; intros newObj HnewObj; simpl; [done|].
  apply IH. unfold canonicalize_step.
  destruct (hasOwnProperty value key) eqn:Hown; [|done].
  destruct (js_get value key) eqn:Hget; try done;
    apply Forall_js_set; try done; intros k; apply Hf; try done;
    by rewrite Hget.
Qed.

Lemma canonicalize_JsonValue v compareFn :
  JsonValue (canonicalize v compareFn).
Proof.
  induction v as [| | | | |l IH|o IH] using JsonLikeValue_nested_ind;
    try done.
  - rewrite canonicalize_array, JsonValue_array, Forall_map.
    eapply Forall_impl; [exact IH|]. done.
  - rewrite canonicalize_object, JsonValue_object.
    apply fold_left_canonicalize_step_Forall; [|constructor].
    intros key k Hown _. simpl.
    rewrite Forall_forall in IH.
    apply (IH (key, js_get o key)). by apply js_get_elem_of.
Qed.

(** C1.  Whatever the value and whatever the comparator (none, or any
    function at all), the result of [canonicalize] contains no [undefined]:
    not at the top, not as an array element, not as a property value, at any
    depth. *)
Theorem canonicalize_is_JsonValue :
  ∀ (v : JsonLikeValue) (compareFn : option compare_fn),
    JsonValue (canonicalize v compareFn)
    ∧ contains_undefined (canonicalize v compareFn) = false.
Proof.
  intros v compareFn.
  pose proof (canonicalize_JsonValue v compareFn) as Hstrict.
  split; [exact Hstrict|].
  by apply contains_undefined_spec.
Qed.

(** C3.  An array canonicalizes to a new array of the same length whose
    element at each position is the canonical form of the element at that
    position; [undefined] canonicalizes to [null], as an element and at the
    top, and the primitives canonicalize to themselves. *)
Theorem canonicalize_sequence :
  ∀ (elements : list JsonLikeValue) (compareFn : option compare_fn),
    let newArray := map (λ e, canonicalize e compareFn) elements in
    canonicalize (JArray elements) compareFn = JArray newArray
    ∧ length newArray = length elements
    ∧ (∀ i : nat,
         newArray !! i = (λ e, canonicalize e compareFn) <$> elements !! i)
    ∧ canonicalize JUndefined compareFn = JNull
    ∧ canonicalize JNull compareFn = JNull
    ∧ (∀ b, canonicalize (JBoolean b) compareFn = JBoolean b)
    ∧ (∀ n, canonicalize (JNumber n) compareFn = JNumber n)
    ∧ (∀ s, canonicalize (JString s) compareFn = JString s).
Proof.
  intros elements compareFn newArray. subst newArray.
  split; [apply canonicalize_array|].
  split; [apply length_map|].
  split; [intros i; apply list_lookup_fmap|].
  repeat split.
Qed.

(** ** [safeParse] *)

(** C9.  [safeParse] never throws, whatever [JSON.parse] does with the text:
    it returns a tagged result.  When [JSON.parse] returns, the result is the
    success object with the parsed data.  When [JSON.parse] throws, the
    result is the failure object and its error is a [SyntaxError]: the one
    that was thrown, or a new one wrapping an error of another class. *)
Theorem safeParse_total :
  ∀ (JSON_parse : string → completion JsonLikeValue) (jsonString : string),
    (∃ result, safeParse JSON_parse jsonString = Return result)
    ∧ match JSON_parse jsonString with
      | Return data =>
          safeParse JSON_parse jsonString = Return (Success data)
      | Throw (SyntaxError message) =>
          safeParse JSON_parse jsonString
          = Return (Failure (SyntaxError message))
      | Throw (OtherError name message) =>
          safeParse JSON_parse jsonString
          = Return
              (Failure
                 (SyntaxError
                    ("Unknown parsing error: "
                     +:+ error_to_string (OtherError name message))))
      end
    ∧ (∀ error, safeParse JSON_parse jsonString ≠ Throw error).
Proof.
  intros JSON_parse jsonString. unfold safeParse, parse.
  destruct (JSON_parse jsonString) as [data|[message|name message]];
    (split; [eauto|]); (split; done).
Qed.

(** ** [dedupeBy] *)

Section dedupeBy.
Context {T K : Type} `{Countable K}.
Variable stringifier : T → K.

Lemma dedupeBy_fold_seen (items : list T) :
  (fold_left (dedupeBy_step stringifier) items (∅, [])).1
  = list_to_set (stringifier <$> items).
Proof.
  induction items as [|x items IH] using rev_ind; [done|].
  rewrite fold_left_app, fmap_app, list_to_set_app_L. simpl.
  destruct (fold_left _ items _) as [seen uniqueItems]. simpl in *. subst seen.
  destruct (decide _) as [Hin|Hin]; simpl; set_solver.
Qed.

(** The loop, one item at a time: the last item is appended exactly when
    its key is the key of no item before it. *)
Lemma dedupeBy_snoc (items : list T) (item : T) :
  dedupeBy (items ++ [item]) stringifier
  = dedupeBy items stringifier
    ++ (if decide (stringifier item ∈ stringifier <$> items) then []
        else [item]).
Proof.
  unfold dedupeBy. rewrite fold_left_app. simpl.
  pose proof (dedupeBy_fold_seen items) as Hseen.
  destruct (fold_left _ items _) as [seen uniqueItems]. simpl in *. subst seen.
  destruct (decide (_ ∈ list_to_set _)) as [Hin|Hin];
    destruct (decide (_ ∈ stringifier <$> items)) as [Hin'|Hin']; simpl;
    try by rewrite ?app_nil_r.
  - exfalso. apply Hin'. by apply elem_of_list_to_set in Hin.
  - exfalso. apply Hin. by apply elem_of_list_to_set.
Qed.

Lemma dedupeBy_nil : dedupeBy [] stringifier = [].
Proof. done. Qed.

(** C8.  [dedupeBy] keeps the item at position [i] exactly when its key is
    not the key of one of the [i] items before it: the result is the first
    occurrence of each key, in the order of the input.  Hence the result is
    a subsequence of the input made of the input's own items, no key occurs
    twice in it, and every key of the input occurs in it.  The function is
    total: a repeated key is skipped, nothing is raised. *)
Theorem dedupeBy_first_occurrences :
  ∀ items : list T,
    dedupeBy items stringifier
    = omap id
        (imap (λ i item,
                 if decide (stringifier item ∈ stringifier <$> take i items)
                 then None else Some item) items)
    ∧ sublist (dedupeBy items stringifier) items
    ∧ NoDup (stringifier <$> dedupeBy items stringifier)
    ∧ (∀ key, key ∈ stringifier <$> items
              ↔ key ∈ stringifier <$> dedupeBy items stringifier).
Proof.
  intros items. induction items as [|x items IH] using rev_ind.
  - rewrite dedupeBy_nil. repeat split; try done; constructor.
  - destruct IH as (IHeq & IHsub & IHnodup & IHkeys).
    rewrite dedupeBy_snoc. repeat split.
    + rewrite imap_app, omap_app. f_equal.
      * rewrite IHeq. f_equal. apply imap_ext. intros i y Hy.
        assert (i < length items)%nat by (by eapply lookup_lt_Some).
        by rewrite take_app_le by lia.
      * simpl. rewrite Nat.add_0_r, take_app_length.
        by destruct (decide _).
    + destruct (decide _).
      * rewrite app_nil_r. by apply sublist_inserts_r.
      * by apply sublist_app.
    + destruct (decide _) as [Hin|Hin].
      * by rewrite app_nil_r.
      * rewrite fmap_app. apply NoDup_app. split; [done|]. split.
        -- intros k Hk. simpl. rewrite list_elem_of_singleton. intros ->.
           apply Hin. by apply IHkeys.
        -- simpl. apply NoDup_singleton.
    + rewrite fmap_app, elem_of_app. intros [Hk|Hk].
      * rewrite fmap_app, elem_of_app. left. by apply IHkeys.
      * simpl in Hk. apply list_elem_of_singleton in Hk as ->.
        destruct (decide _) as [Hin|Hin].
        -- rewrite app_nil_r. by apply IHkeys.
        -- rewrite fmap_app, elem_of_app. right. simpl. by left.
    + rewrite !fmap_app, !elem_of_app. intros [Hk|Hk].
      * left. by apply IHkeys.
      * destruct (decide _) as [Hin|Hin]; [by apply elem_of_nil in Hk|].
        by right.
Qed.
End dedupeBy.

(** ** [semanticEquals] *)

Lemma Number_equal_serialize x y :
  Number_equal x y = true → serialize_number x = serialize_number y.
Proof.
  destruct x as [| | | |a], y as [| | | |b]; simpl; try done.
  all: try (destruct a; done).
  all: try (destruct b; done).
  destruct a, b; try done; intros Hab%Z.eqb_eq; by rewrite Hab.
Qed.

Lemma IsStrictlyEqual_objects a b :
  is_object (value_of a) = true ∨ is_object (value_of b) = true →
  IsStrictlyEqual a b = true ↔ same_object a b.
Proof.
  unfold IsStrictlyEqual, same_object.
  destruct (value_of a), (value_of b); simpl; intros [?|?]; try done;
    rewrite ?Nat.eqb_eq; (split; [|by intros (? & ? & ?)]); done.
Qed.

Lemma IsStrictlyEqual_same_string a b :
  aliasing_consistent a b →
  IsStrictlyEqual a b = true →
  createCanonicalJsonString (value_of a) None None
  = createCanonicalJsonString (value_of b) None None.
Proof.
  intros Halias Heq.
  destruct (is_object (value_of a)) eqn:Ha.
  - by rewrite Halias by (apply IsStrictlyEqual_objects; auto).
  - unfold IsStrictlyEqual in Heq.
    destruct (value_of a) as [| |x|x|x| |], (value_of b) as [| |y|y|y| |];
      try done.
    + by apply Bool.eqb_prop in Heq as ->.
    + unfold createCanonicalJsonString, JSON_stringify. simpl.
      by rewrite (Number_equal_serialize x y).
    + by apply String.eqb_eq in Heq as ->.
Qed.

(** C6.  [semanticEquals(a, b)] is [true] exactly when the canonical strings
    of [a] and [b] are the same string: returning early on [a === b] gives
    the answer that comparing the strings would give.  (Two references to
    one object necessarily show one tree: that is [aliasing_consistent].) *)
Theorem semanticEquals_iff_same_string :
  ∀ a b : argument,
    aliasing_consistent a b →
    semanticEquals a b
    = bool_decide (createCanonicalJsonString (value_of a) None None
                   = createCanonicalJsonString (value_of b) None None)
    ∧ (semanticEquals a b = true
       ↔ createCanonicalJsonString (value_of a) None None
         = createCanonicalJsonString (value_of b) None None).
Proof.
  intros a b Halias.
  assert (Hbool : semanticEquals a b
                  = bool_decide
                      (createCanonicalJsonString (value_of a) None None
                       = createCanonicalJsonString (value_of b) None None)).
  { unfold semanticEquals.
    destruct (IsStrictlyEqual a b) eqn:Heq; [|done].
    symmetry. apply bool_decide_eq_true.
    by apply IsStrictlyEqual_same_string. }
  split; [done|]. rewrite Hbool. apply bool_decide_eq_true.
Qed.

Lemma semanticEquals_iff_same_string_witness :
  let a := Argument 3 (JArray [JUndefined; JNumber NegZero]) in
  let b := Argument 3 (JArray [JUndefined; JNumber NegZero]) in
  aliasing_consistent a b
  ∧ semanticEquals a b
    = bool_decide (createCanonicalJsonString (value_of a) None None
                   = createCanonicalJsonString (value_of b) None None)
  ∧ (semanticEquals a b = true
     ↔ createCanonicalJsonString (value_of a) None None
       = createCanonicalJsonString (value_of b) None None).
Proof.
  intros a b.
  assert (Halias : aliasing_consistent a b) by (intros _; reflexivity).
  split; [exact Halias|].
  exact (semanticEquals_iff_same_string a b Halias).
Defined.

(** C7, as the specification states it, fails: the early return is taken for
    an array compared with itself. *)
Lemma fast_path_taken_for_same_array :
  ¬ (∀ a b : argument,
       is_object (value_of a) = true ∨ is_object (value_of b) = true →
       IsStrictlyEqual a b = false).
Proof.
  intros Hclaim.
  specialize (Hclaim (Argument 7 (JArray [])) (Argument 7 (JArray []))
                (or_introl eq_refl)).
  discriminate Hclaim.
Qed.

(** C7, amended.  When one of the two arguments is an array or an object,
    the early return is taken only if both arguments are one and the same
    object; two distinct objects, and an object against a primitive, are
    always compared through their canonical strings.  *)
Theorem fast_path_only_for_same_object :
  ∀ a b : argument,
    is_object (value_of a) = true ∨ is_object (value_of b) = true →
    (IsStrictlyEqual a b = true ↔ same_object a b)
    ∧ (¬ same_object a b →
       semanticEquals a b
       = bool_decide (createCanonicalJsonString (value_of a) None None
                      = createCanonicalJsonString (value_of b) None None)).
Proof.
  intros a b Hobj. split; [by apply IsStrictlyEqual_objects|].
  intros Hnot. unfold semanticEquals.
  destruct (IsStrictlyEqual a b) eqn:Heq; [|done].
  exfalso. apply Hnot. by apply IsStrictlyEqual_objects.
Qed.

Lemma fast_path_only_for_same_object_witness :
  let a :=
    Argument 1 (JObject [("b", JNumber (Int 2)); ("a", JNumber (Int 1))]) in
  let b :=
    Argument 2 (JObject [("a", JNumber (Int 1)); ("b", JNumber (Int 2))]) in
  (is_object (value_of a) = true ∨ is_object (value_of b) = true)
  ∧ (IsStrictlyEqual a b = true ↔ same_object a b)
  ∧ (¬ same_object a b →
     semanticEquals a b
     = bool_decide (createCanonicalJsonString (value_of a) None None
                    = createCanonicalJsonString (value_of b) None None)).
Proof.
  intros a b.
  assert (Hobj : is_object (value_of a) = true ∨ is_object (value_of b) = true)
    by (left; reflexivity).
  split; [exact Hobj|].
  exact (fast_path_only_for_same_object a b Hobj).
Defined.

(** ** The sort of the keys *)

Lemma sort_insert_Permutation cmp x l : sort_insert cmp x l ≡ₚ x :: l.
Proof.
  induction l as [|y l IH]; simpl; [done|].
  destruct (cmp x y <=? 0); [done|].
  rewrite IH. apply Permutation_swap.
Qed.

Lemma Array_sort_Permutation cmp l : Array_sort cmp l ≡ₚ l.
Proof.
  unfold Array_sort. induction l as [|x l IH]; simpl; [done|].
  by rewrite sort_insert_Permutation, IH.
Qed.

Lemma Array_sort_elem_of cmp l x : x ∈ Array_sort cmp l ↔ x ∈ l.
Proof. by rewrite Array_sort_Permutation. Qed.

Lemma default_compare_leb x y :
  (default_compare x y <=? 0) = String.leb x y.
Proof.
  unfold default_compare, String.ltb, String.leb.
  rewrite (String.compare_antisym x y).
  by destruct (String.compare y x).
Qed.

Lemma sort_insert_default_Sorted x l :
  Sorted String.le l → Sorted String.le (sort_insert default_compare x l).
Proof.
  induction 1 as [|y l Hl IH Hy]; simpl.
  - by repeat constructor.
  - rewrite default_compare_leb.
    destruct (String.leb x y) eqn:Hxy.
    + repeat constructor; try done. unfold String.le. by rewrite Hxy.
    + assert (Hyx : String.le y x).
      { destruct (total String.le x y) as [Hle|Hle]; [|done].
        unfold String.le in Hle. by rewrite Hxy in Hle. }
      constructor; [done|].
      destruct l as [|z l]; simpl; [by constructor|].
      rewrite default_compare_leb.
      destruct (String.leb x z); constructor; try done.
      by inversion Hy.
Qed.

Lemma Array_sort_default_Sorted l :
  StronglySorted String.le (Array_sort default_compare l).
Proof.
  apply Sorted_StronglySorted; [apply _|].
  unfold Array_sort. induction l as [|x l IH]; simpl; [constructor|].
  by apply sort_insert_default_Sorted.
Qed.

(** With the default comparison the sorted keys do not depend on the order
    in which the keys were. *)
Lemma Array_sort_default_Permutation l1 l2 :
  l1 ≡ₚ l2 → Array_sort default_compare l1 = Array_sort default_compare l2.
Proof.
  intros Hperm.
  apply (StronglySorted_unique String.le);
    [apply Array_sort_default_Sorted..|].
  by rewrite !Array_sort_Permutation.
Qed.

(** ** Reading properties *)

Lemma js_get_not_own o key :
  hasOwnProperty o key = false → js_get o key = JUndefined.
Proof.
  unfold hasOwnProperty.
  induction o as [|[k v] o IH]; simpl; [done|].
  destruct (String.eqb k key); simpl; [done|auto].
Qed.

Lemma js_get_unique o key v :
  NoDup (Object_keys o) → (key, v) ∈ o → js_get o key = v.
Proof.
  unfold Object_keys.
  induction o as [|[k x] o IH]; simpl; intros Hnodup Hin.
  - by apply elem_of_nil in Hin.
  - apply NoDup_cons in Hnodup as [Hk Hnodup].
    apply elem_of_cons in Hin as [[= -> ->]|Hin].
    + by rewrite String.eqb_refl.
    + destruct (String.eqb k key) eqn:E; [|auto].
      apply String.eqb_eq in E as ->. exfalso. apply Hk.
      apply list_elem_of_fmap. by exists (key, v).
Qed.

Lemma hasOwnProperty_Permutation o1 o2 key :
  o1 ≡ₚ o2 → hasOwnProperty o1 key = hasOwnProperty o2 key.
Proof.
  intros Hperm.
  destruct (hasOwnProperty o1 key) eqn:H1, (hasOwnProperty o2 key) eqn:H2;
    try done.
  - apply hasOwnProperty_elem_of in H1. unfold Object_keys in H1.
    rewrite Hperm in H1. apply hasOwnProperty_elem_of in H1. congruence.
  - apply hasOwnProperty_elem_of in H2. unfold Object_keys in H2.
    rewrite <- Hperm in H2. apply hasOwnProperty_elem_of in H2. congruence.
Qed.

Lemma js_get_Permutation o1 o2 key :
  NoDup (Object_keys o1) → o1 ≡ₚ o2 → js_get o1 key = js_get o2 key.
Proof.
  intros Hnodup Hperm.
  destruct (hasOwnProperty o1 key) eqn:Hown.
  - symmetry. apply js_get_unique.
    + unfold Object_keys in *. by rewrite <- Hperm.
    + rewrite <- Hperm. by apply js_get_elem_of.
  - rewrite (js_get_not_own o1) by done.
    rewrite (js_get_not_own o2); [done|].
    by rewrite <- (hasOwnProperty_Permutation o1 o2).
Qed.

(** ** Key-order invariance *)

Lemma canonicalize_object_Permutation o1 o2 :
  NoDup (Object_keys o1) → o1 ≡ₚ o2 →
  canonicalize (JObject o1) None = canonicalize (JObject o2) None.
Proof.
  intros Hnodup Hperm. rewrite !canonicalize_object. f_equal.
  change (SortCompare None) with default_compare.
  rewrite (Array_sort_default_Permutation (Object_keys o1) (Object_keys o2))
    by (unfold Object_keys; by rewrite Hperm).
  generalize (Array_sort default_compare (Object_keys o2)).
  generalize (@nil (string * JsonLikeValue)).
  intros newObj keys. revert newObj.
  induction keys as [|key keys IH]; intros newObj; simpl; [done|].
  rewrite IH. f_equal. unfold canonicalize_step.
  rewrite (hasOwnProperty_Permutation o1 o2) by done.
  by rewrite (js_get_Permutation o1 o2).
Qed.

(** C5.  Two objects with the same properties, listed in different orders,
    have the same canonical string (with any [space] argument). *)
Theorem createCanonicalJsonString_key_order :
  ∀ (m1 m2 : JsonLikeObject) (space : option space_argument),
    NoDup (Object_keys m1) →
    m1 ≡ₚ m2 →
    createCanonicalJsonString (JObject m1) None space
    = createCanonicalJsonString (JObject m2) None space.
Proof.
  intros m1 m2 space Hnodup Hperm. unfold createCanonicalJsonString.
  by rewrite (canonicalize_object_Permutation m1 m2).
Qed.

Lemma createCanonicalJsonString_key_order_witness :
  let m1 := [("9", JUndefined); ("10", JArray [JUndefined]);
             ("c", JNumber (Int 3)); ("a", JNumber (Int 1))] in
  let m2 := [("9", JUndefined); ("10", JArray [JUndefined]);
             ("a", JNumber (Int 1)); ("c", JNumber (Int 3))] in
  NoDup (Object_keys m1)
  ∧ m1 ≡ₚ m2
  ∧ createCanonicalJsonString (JObject m1) None None
    = createCanonicalJsonString (JObject m2) None None.
Proof.
  intros m1 m2.
  assert (Hnodup : NoDup (Object_keys m1)).
  { apply NoDup_ListNoDup. unfold m1. simpl.
    repeat (constructor; [simpl; intuition discriminate|]). constructor. }
  assert (Hperm : m1 ≡ₚ m2).
  { unfold m1, m2. do 2 apply Permutation_skip. apply Permutation_swap. }
  split; [exact Hnodup|]. split; [exact Hperm|].
  exact (createCanonicalJsonString_key_order m1 m2 None Hnodup Hperm).
Defined.

(** ** Writing properties *)

Lemma array_index_spelling key n :
  array_index key = Some n →
  NilEmpty.string_of_uint (N.to_uint n) = key.
Proof.
  unfold array_index.
  destruct (NilEmpty.uint_of_string key) as [d|]; [|done].
  destruct (String.eqb _ key) eqn:E; simpl; [|done].
  destruct (N.of_uint d <=? 4294967294)%N; [|done].
  intros [= <-]. by apply String.eqb_eq.
Qed.

Lemma array_index_inj a b n :
  array_index a = Some n → array_index b = Some n → a = b.
Proof.
  intros Ha%array_index_spelling Hb%array_index_spelling. congruence.
Qed.

Lemma Object_keys_replace_property key v o :
  Object_keys (replace_property key v o) = Object_keys o.
Proof.
  unfold Object_keys.
  induction o as [|[k x] o IH]; csimpl; [done|].
  destruct (String.eqb k key); csimpl; [done|]. by rewrite IH.
Qed.

Lemma insert_index_Permutation n key v o :
  insert_index n key v o ≡ₚ (key, v) :: o.
Proof.
  induction o as [|[k x] o IH]; simpl; [done|].
  destruct (array_index k) as [m|]; [|done].
  destruct (m <? n)%N; [|done].
  rewrite IH. apply Permutation_swap.
Qed.

Lemma elem_of_Object_keys_js_set o key v x :
  x ∈ Object_keys (js_set o key v) ↔ x = key ∨ x ∈ Object_keys o.
Proof.
  unfold js_set.
  destruct (hasOwnProperty o key) eqn:Hown.
  - rewrite Object_keys_replace_property.
    apply hasOwnProperty_elem_of in Hown.
    split; [by right|]. by intros [->|?].
  - unfold Object_keys. destruct (array_index key) as [n|].
    + rewrite insert_index_Permutation. simpl. apply elem_of_cons.
    + rewrite fmap_app, elem_of_app. simpl. rewrite list_elem_of_singleton.
      tauto.
Qed.

Lemma js_get_replace_property o key v key' :
  hasOwnProperty o key = true →
  js_get (replace_property key v o) key'
  = if String.eqb key key' then v else js_get o key'.
Proof.
  unfold hasOwnProperty.
  induction o as [|[k x] o IH]; simpl; [done|].
  destruct (String.eqb k key) eqn:Ek; simpl.
  - apply String.eqb_eq in Ek as ->. intros _.
    by destruct (String.eqb key key').
  - intros Hown. rewrite IH by done.
    destruct (String.eqb k key') eqn:Ek'; [|done].
    apply String.eqb_eq in Ek' as ->. by rewrite String.eqb_sym, Ek.
Qed.

Lemma js_get_insert_index n o key v key' :
  hasOwnProperty o key = false →
  js_get (insert_index n key v o) key'
  = if String.eqb key key' then v else js_get o key'.
Proof.
  unfold hasOwnProperty.
  induction o as [|[k x] o IH]; simpl; [done|].
  destruct (String.eqb k key) eqn:Ek; simpl; [done|]. intros Hown.
  destruct (array_index k) as [m|]; [destruct (m <? n)%N|]; simpl; try done.
  rewrite IH by done.
  destruct (String.eqb k key') eqn:Ek'; [|done].
  apply String.eqb_eq in Ek' as ->. by rewrite String.eqb_sym, Ek.
Qed.

Lemma js_get_app_new o key v key' :
  hasOwnProperty o key = false →
  js_get (o ++ [(key, v)]) key'
  = if String.eqb key key' then v else js_get o key'.
Proof.
  unfold hasOwnProperty.
  induction o as [|[k x] o IH]; simpl; [done|].
  destruct (String.eqb k key) eqn:Ek; simpl; [done|]. intros Hown.
  rewrite IH by done.
  destruct (String.eqb k key') eqn:Ek'; [|done].
  apply String.eqb_eq in Ek' as ->. by rewrite String.eqb_sym, Ek.
Qed.

(** Reading back after [o[key] = v]. *)
Lemma js_get_js_set o key v key' :
  js_get (js_set o key v) key'
  = if String.eqb key key' then v else js_get o key'.
Proof.
  unfold js_set. destruct (hasOwnProperty o key) eqn:Hown.
  - by apply js_get_replace_property.
  - destruct (array_index key).
    + by apply js_get_insert_index.
    + by apply js_get_app_new.
Qed.

(** ** The enumeration order of the result *)

Lemma key_before_irrefl a : ¬ key_before a a.
Proof.
  unfold key_before, key_order. destruct (array_index a); [lia|]. by intros [_ ?].
Qed.

Lemma key_before_antisym a b : key_before a b → key_before b a → a = b.
Proof.
  unfold key_before, key_order.
  destruct (array_index a), (array_index b); try done; [lia|].
  intros [Hab _] [Hba _]. by apply (anti_symm String.le).
Qed.

Lemma StronglySorted_key_before_NoDup keys :
  StronglySorted key_before keys → NoDup keys.
Proof.
  induction 1 as [|k keys _ IH Hk]; constructor; [|done].
  intros Hin. rewrite Forall_forall in Hk.
  by apply (key_before_irrefl k), Hk.
Qed.

Section key_order.
Variable named_before : relation string.

Lemma insert_index_sorted n key v o :
  array_index key = Some n →
  key ∉ Object_keys o →
  StronglySorted (key_order named_before) (Object_keys o) →
  StronglySorted (key_order named_before)
    (Object_keys (insert_index n key v o)).
Proof.
  intros Hkey. unfold Object_keys.
  induction o as [|[k x] o IH]; simpl; intros Hnew Hsorted.
  - repeat constructor.
  - apply not_elem_of_cons in Hnew as [Hne Hnew].
    apply StronglySorted_cons in Hsorted as [Hk Hsorted].
    destruct (array_index k) as [m|] eqn:Hm; [destruct (m <? n)%N eqn:Hmn|].
    + simpl. apply StronglySorted_cons. split; [|by apply IH].
      rewrite Forall_forall in Hk |- *. intros y Hy.
      rewrite insert_index_Permutation in Hy. simpl in Hy.
      apply elem_of_cons in Hy as [->|Hy]; [|by apply Hk].
      unfold key_order. rewrite Hm, Hkey. by apply N.ltb_lt.
    + simpl. apply StronglySorted_cons. split.
      * assert (Hnm : (n < m)%N).
        { apply N.ltb_ge in Hmn.
          destruct (decide (n = m)) as [->|]; [|lia].
          exfalso. apply Hne. by eapply array_index_inj. }
        constructor.
        -- unfold key_order. by rewrite Hkey, Hm.
        -- rewrite Forall_forall in Hk |- *. intros y Hy.
           specialize (Hk y Hy). unfold key_order in *.
           rewrite Hkey. rewrite Hm in Hk.
           destruct (array_index y); [lia|done].
      * apply StronglySorted_cons. by split.
    + simpl. apply StronglySorted_cons. split.
      * constructor.
        -- unfold key_order. by rewrite Hkey, Hm.
        -- rewrite Forall_forall in Hk |- *. intros y Hy.
           specialize (Hk y Hy). unfold key_order in *.
           rewrite Hkey. rewrite Hm in Hk.
           by destruct (array_index y).
      * apply StronglySorted_cons. by split.
Qed.

(** [o[key] = v] keeps the keys in enumeration order, provided that a new
    key which is not an array index comes after the keys of its kind. *)
Lemma js_set_sorted o key v :
  StronglySorted (key_order named_before) (Object_keys o) →
  (∀ x, key ∉ Object_keys o → x ∈ Object_keys o →
        array_index x = None → array_index key = None →
        named_before x key) →
  StronglySorted (key_order named_before) (Object_keys (js_set o key v)).
Proof.
  intros Hsorted Hnamed. unfold js_set.
  destruct (hasOwnProperty o key) eqn:Hown.
  - by rewrite Object_keys_replace_property.
  - assert (Hnew : key ∉ Object_keys o).
    { intros Hin%hasOwnProperty_elem_of. congruence. }
    destruct (array_index key) as [n|] eqn:Hkey.
    + by apply insert_index_sorted.
    + unfold Object_keys. rewrite fmap_app. simpl.
      apply StronglySorted_app_2; [|done|repeat constructor].
      intros x y Hx ->%list_elem_of_singleton.
      unfold key_order. rewrite Hkey.
      destruct (array_index x) eqn:Hx'; [done|]. by apply Hnamed.
Qed.
End key_order.

(** ** The loop over the sorted keys *)

Lemma canonicalize_step_eq value f newObj key :
  canonicalize_step value f newObj key
  = if is_undefined (js_get value key) then newObj
    else js_set newObj key (f key).
Proof.
  unfold canonicalize_step.
  destruct (hasOwnProperty value key) eqn:Hown.
  - by destruct (js_get value key).
  - by rewrite js_get_not_own.
Qed.

Lemma fold_left_canonicalize_step_sorted value f keys newObj :
  StronglySorted String.le keys →
  StronglySorted key_before (Object_keys newObj) →
  (∀ x y, x ∈ Object_keys newObj → y ∈ keys → array_index x = None →
          String.le x y) →
  StronglySorted key_before
    (Object_keys (fold_left (canonicalize_step value f) keys newObj)).
Proof.
  revert newObj.
  induction keys as [|key keys IH]; intros newObj Hkeys Hsorted Hle; simpl;
    [done|].
  apply StronglySorted_cons in Hkeys as [Hkey Hkeys].
  rewrite Forall_forall in Hkey.
  apply IH; [done|..]; rewrite canonicalize_step_eq;
    destruct (is_undefined (js_get value key)).
  - done.
  - apply js_set_sorted; [done|]. intros x Hnew Hx Hnone _.
    split; [|by intros ->]. apply (Hle x key); [done|by left|done].
  - intros x y Hx Hy. apply Hle; [done|by right].
  - intros x y [->|Hx]%elem_of_Object_keys_js_set Hy Hnone.
    + by apply Hkey.
    + apply Hle; [done|by right|done].
Qed.

Lemma fold_left_canonicalize_step_keys value f keys newObj x :
  x ∈ Object_keys (fold_left (canonicalize_step value f) keys newObj)
  ↔ x ∈ Object_keys newObj
    ∨ (x ∈ keys ∧ is_undefined (js_get value x) = false).
Proof.
  revert newObj.
  induction keys as [|key keys IH]; intros newObj; simpl.
  - split; [by left|]. intros [?|[?%elem_of_nil _]]; done.
  - rewrite IH, canonicalize_step_eq, elem_of_cons.
    destruct (is_undefined (js_get value key)) eqn:Hkey.
    + split; [tauto|]. intros [?|[[->|?] ?]]; [tauto|congruence|tauto].
    + rewrite elem_of_Object_keys_js_set.
      split; [|tauto]. intros [[->|?]|?]; tauto.
Qed.

Lemma fold_left_canonicalize_step_get value f keys newObj x :
  js_get (fold_left (canonicalize_step value f) keys newObj) x
  = if bool_decide (x ∈ keys) && negb (is_undefined (js_get value x))
    then f x else js_get newObj x.
Proof.
  revert newObj.
  induction keys as [|key keys IH]; intros newObj; simpl; [done|].
  rewrite IH, canonicalize_step_eq.
  destruct (is_undefined (js_get value x)) eqn:Hx.
  - rewrite !andb_false_r.
    destruct (is_undefined (js_get value key)) eqn:Hkey; [done|].
    rewrite js_get_js_set.
    destruct (String.eqb key x) eqn:E; [|done].
    apply String.eqb_eq in E as ->. congruence.
  - rewrite !andb_true_r.
    destruct (decide (x ∈ keys)) as [Hin|Hin].
    + rewrite !bool_decide_eq_true_2; [done| |done]. by right.
    + rewrite (bool_decide_eq_false_2 (x ∈ keys)) by done.
      destruct (decide (x = key)) as [->|Hne].
      * rewrite bool_decide_eq_true_2 by (by left).
        rewrite Hx, js_get_js_set. by rewrite String.eqb_refl.
      * rewrite bool_decide_eq_false_2
          by (intros [?|?]%elem_of_cons; done).
        destruct (is_undefined (js_get value key)); [done|].
        rewrite js_get_js_set.
        destruct (String.eqb key x) eqn:E; [|done].
        apply String.eqb_eq in E. congruence.
Qed.

(** ** Idempotence *)

Lemma canonical_array elements :
  canonical (JArray elements) ↔ Forall canonical elements.
Proof.
  induction elements as [|e l IH]; simpl in *.
  - split; [constructor | done].
  - rewrite Forall_cons. by rewrite <- IH.
Qed.

Lemma canonical_object properties :
  canonical (JObject properties)
  ↔ StronglySorted key_before (Object_keys properties)
    ∧ Forall (λ kv, canonical kv.2) properties.
Proof.
  simpl. apply and_iff_compat_l.
  induction properties as [|kv l IH]; simpl in *.
  - split; [constructor | done].
  - rewrite Forall_cons. by rewrite <- IH.
Qed.

Lemma canonical_not_undefined v : canonical v → is_undefined v = false.
Proof. by destruct v. Qed.

(** The result of [canonicalize], with the default comparison, is in
    canonical form. *)
Lemma canonicalize_canonical v : canonical (canonicalize v None).
Proof.
  induction v as [| | | | |l IH|o IH] using JsonLikeValue_nested_ind;
    try done.
  - rewrite canonicalize_array, canonical_array, Forall_map.
    eapply Forall_impl; [exact IH|]. done.
  - rewrite canonicalize_object, canonical_object. split.
    + apply fold_left_canonicalize_step_sorted.
      * apply Array_sort_default_Sorted.
      * constructor.
      * by intros x y ?%elem_of_nil.
    + apply fold_left_canonicalize_step_Forall; [|constructor].
      intros key k Hown _. simpl.
      rewrite Forall_forall in IH.
      apply (IH (key, js_get o key)). by apply js_get_elem_of.
Qed.

Lemma object_ext o1 o2 :
  Object_keys o1 = Object_keys o2 →
  NoDup (Object_keys o1) →
  (∀ key, key ∈ Object_keys o1 → js_get o1 key = js_get o2 key) →
  o1 = o2.
Proof.
  unfold Object_keys. revert o2.
  induction o1 as [|[k1 v1] o1 IH]; intros [|[k2 v2] o2]; csimpl; try done.
  intros [= <- Hkeys] [Hk Hnodup]%NoDup_cons Hget.
  f_equal.
  - f_equal. specialize (Hget k1 ltac:(by left)). simpl in Hget.
    by rewrite String.eqb_refl in Hget.
  - apply IH; [done..|]. intros key Hkey.
    specialize (Hget key ltac:(by right)). simpl in Hget.
    destruct (String.eqb k1 key) eqn:E; [|done].
    apply String.eqb_eq in E as ->. done.
Qed.

(** A value in canonical form is left as it is. *)
Lemma canonicalize_fixes_canonical v :
  canonical v → canonicalize v None = v.
Proof.
  induction v as [| | | | |l IH|o IH] using JsonLikeValue_nested_ind;
    try done.
  - rewrite canonical_array, canonicalize_array. intros Hl. f_equal.
    induction IH as [|e l He _ IHl]; [done|].
    apply Forall_cons in Hl as [? ?]. simpl. f_equal; auto.
  - rewrite canonical_object, canonicalize_object.
    intros [Hsorted Hvalues]. f_equal.
    rewrite Forall_forall in IH, Hvalues.
    pose proof (StronglySorted_key_before_NoDup _ Hsorted) as Hnodup.
    assert (Hdefined : ∀ key, key ∈ Object_keys o →
                              is_undefined (js_get o key) = false).
    { intros key Hkey%hasOwnProperty_elem_of%js_get_elem_of.
      by apply canonical_not_undefined, (Hvalues _ Hkey). }
    set (f := λ key, canonicalize (js_get o key) None).
    set (keys := Array_sort (SortCompare None) (Object_keys o)).
    assert (Hkeys : ∀ x, x ∈ Object_keys
                           (fold_left (canonicalize_step o f) keys [])
                         ↔ x ∈ Object_keys o).
    { intros x. rewrite fold_left_canonicalize_step_keys. unfold keys.
      rewrite Array_sort_elem_of. split.
      - by intros [?%elem_of_nil|[? _]].
      - intros Hx. right. auto. }
    assert (Hsorted' : StronglySorted key_before
              (Object_keys (fold_left (canonicalize_step o f) keys []))).
    { apply fold_left_canonicalize_step_sorted.
      - apply Array_sort_default_Sorted.
      - constructor.
      - by intros x y ?%elem_of_nil. }
    assert (Heq : Object_keys (fold_left (canonicalize_step o f) keys [])
                  = Object_keys o).
    { apply (StronglySorted_unique_strong key_before); [|done..|].
      - intros x y _ _. apply key_before_antisym.
      - apply NoDup_Permutation; [|done..].
        by apply StronglySorted_key_before_NoDup. }
    apply object_ext; [done| by rewrite Heq |].
    intros key Hkey%Hkeys.
    rewrite fold_left_canonicalize_step_get.
    unfold keys. rewrite bool_decide_eq_true_2
      by (by apply Array_sort_elem_of).
    rewrite Hdefined by done. simpl. unfold f.
    apply hasOwnProperty_elem_of, js_get_elem_of in Hkey.
    apply (IH _ Hkey). by apply (Hvalues _ Hkey).
Qed.

Lemma JsonLikeValue_eqb_refl v : JsonLikeValue_eqb v v = true.
Proof.
  induction v as [| |b|n|s|l IH|o IH] using JsonLikeValue_nested_ind;
    simpl; try done.
  - by destruct b.
  - by apply bool_decide_eq_true.
  - apply String.eqb_refl.
  - induction IH as [|e l He _ IHl]; [done|]. by rewrite He, IHl.
  - induction IH as [|[k x] o Hx _ IHo]; [done|]. simpl in Hx.
    by rewrite String.eqb_refl, Hx, IHo.
Qed.

(** C4.  Canonicalizing a canonical form changes nothing:
    [canonicalize(canonicalize(v))] is [canonicalize(v)], as trees and
    a fortiori for the structural comparison. *)
Theorem canonicalize_idempotent :
  ∀ v : JsonLikeValue,
    canonicalize (canonicalize v None) None = canonicalize v None
    ∧ JsonLikeValue_eqb (canonicalize (canonicalize v None) None)
        (canonicalize v None) = true.
Proof.
  intros v.
  pose proof (canonicalize_canonical v) as Hcanonical.
  apply canonicalize_fixes_canonical in Hcanonical.
  split; [exact Hcanonical|].
  rewrite Hcanonical. apply JsonLikeValue_eqb_refl.
Qed.

(** ** The codec: reading back what was written *)

Local Arguments is_digit : simpl never.
Local Arguments is_whitespace : simpl never.
Local Arguments quote_code_unit : simpl never.
Local Arguments decimal_digits : simpl never.
Local Arguments Ascii.eqb : simpl never.
Local Arguments signed_number : simpl never.
Local Arguments QuoteJSONString : simpl never.
Local Arguments compact : simpl never.







Lemma string_of_uint_digits d :
  Forall (λ c, is_digit c = true) (chars (NilEmpty.string_of_uint d)).
Proof. induction d; simpl; constructor; done. Qed.


Lemma decimal_digits_head n :
  ∃ c digits, decimal_digits n = c :: digits ∧ is_digit c = true.
Proof.
  unfold decimal_digits.
  pose proof (string_of_uint_digits (N.to_uint n)) as Hdigits.
  destruct (chars (NilEmpty.string_of_uint (N.to_uint n)))
    as [|c digits] eqn:E.
  - exfalso. destruct n as [|p]; [done|]. simpl in E.
    pose proof (DecimalPos.Unsigned.to_uint_nonnil p) as Hnil.
    by destruct (Pos.to_uint p).
  - apply Forall_cons in Hdigits as [Hc _]. eauto.
Qed.



Lemma Number_toString_head z :
  ∃ c t, Number_toString z = c :: t
         ∧ (Ascii.eqb c "-"%char || is_digit c = true).
Proof.
  unfold Number_toString. destruct (z <? 0).
  - eexists _, _. split; [done|]. done.
  - destruct (decimal_digits_head (Z.to_N z)) as (c & digits & -> & Hc).
    eexists _, _. split; [done|]. by rewrite Hc, orb_true_r.
Qed.

Lemma skip_whitespace_cons c t :
  is_whitespace c = false → skip_whitespace (c :: t) = c :: t.
Proof. intros H. simpl. by rewrite H. Qed.

(** *** One step of the reader *)



Lemma parse_value_array_empty f rest :
  parse_value (S f) ("["%char :: "]"%char :: rest) = Ok (JArray []) rest.
Proof. reflexivity. Qed.


Lemma parse_value_object_empty f rest :
  parse_value (S f) ("{"%char :: "}"%char :: rest) = Ok (JObject []) rest.
Proof. reflexivity. Qed.






(** *** The text of arrays and objects *)

Lemma join_cons separator p parts :
  join separator (p :: parts)
  = p ++ concat (map (λ q, separator ++ q) parts).
Proof.
  revert p. induction parts as [|q parts IH]; intros p.
  - simpl. by rewrite app_nil_r.
  - change (join separator (p :: q :: parts))
      with (p ++ separator ++ join separator (q :: parts)).
    rewrite IH. simpl. by rewrite <- app_assoc.
Qed.



Lemma compact_array l :
  compact (JArray l)
  = wrap_partial "["%char "]"%char [] [] [] (map compact l).
Proof.
  change (compact (JArray l))
    with (wrap_partial "["%char "]"%char [] [] []
            ((fix each (l : list JsonLikeValue) : list (list ascii) :=
                match l with
                | [] => []
                | e :: l' => compact e :: each l'
                end) l)).
  reflexivity.
Qed.

Lemma compact_object o :
  compact (JObject o)
  = wrap_partial "{"%char "}"%char [] [] [] (map member_text o).
Proof.
  change (compact (JObject o))
    with (wrap_partial "{"%char "}"%char [] [] []
            ((fix each (l : JsonLikeObject) : list (list ascii) :=
                match l with
                | [] => []
                | (P, x) :: l' =>
                    (QuoteJSONString P ++ ":"%char :: compact x) :: each l'
                end) o)).
  f_equal. induction o as [|[? ?] ? IH]; [done|]. by rewrite IH.
Qed.

Lemma compact_array_cons e l rest :
  compact (JArray (e :: l)) ++ rest
  = "["%char :: compact e ++ elements_tail l ++ "]"%char :: rest.
Proof.
  rewrite compact_array. unfold wrap_partial. rewrite map_cons, join_cons.
  unfold elements_tail. rewrite map_map. simpl.
  by rewrite <- !app_assoc.
Qed.

Lemma compact_object_cons kv o rest :
  compact (JObject (kv :: o)) ++ rest
  = "{"%char :: member_text kv ++ members_tail o ++ "}"%char :: rest.
Proof.
  rewrite compact_object. unfold wrap_partial. rewrite map_cons, join_cons.
  unfold members_tail. rewrite map_map. simpl.
  by rewrite <- !app_assoc.
Qed.



Lemma delimited_members_tail o rest :
  delimited (members_tail o ++ "}"%char :: rest) = true.
Proof. by destruct o. Qed.

(** *** Reading a whole value *)
















Lemma SerializeJSONProperty_compact v :
  JsonValue v → SerializeJSONProperty [] [] v = Some (compact v).
Proof.
  induction v as [| |b|n|s|l IH|o IH] using JsonLikeValue_nested_ind;
    try done.
  - by destruct b.
  - rewrite JsonValue_array. intros Hl. simpl. rewrite compact_array.
    do 2 f_equal.
    induction IH as [|e l He _ IHl]; [done|].
    apply Forall_cons in Hl as [? ?]. rewrite He by done.
    simpl. f_equal. auto.
  - rewrite JsonValue_object. intros Ho. simpl. rewrite compact_object.
    do 2 f_equal.
    induction IH as [|[k x] o Hx _ IHo]; [done|].
    apply Forall_cons in Ho as [? ?]. simpl in Hx. rewrite Hx by done.
    simpl. f_equal. auto.
Qed.


(** ** The reader never runs out of fuel *)

Lemma skip_whitespace_length t :
  (length (skip_whitespace t) ≤ length t)%nat.
Proof.
  induction t as [|c t IH]; simpl; [done|].
  destruct (is_whitespace c); simpl; lia.
Qed.

Lemma parse_string_chars_consumes t :
  parse_string_chars t ≠ OutOfFuel
  ∧ ∀ s rest, parse_string_chars t = Ok s rest →
              (length rest < length t)%nat.
Proof.
  remember (length t) as n eqn:Hn.
  assert (Hle : (length t ≤ n)%nat) by lia. clear Hn.
  revert t Hle. induction n as [|n IH]; intros t Hle.
  { destruct t; [|simpl in Hle; lia]. by split. }
  destruct t as [|c t]; [by split|]. simpl in Hle.
  cbn [parse_string_chars].
  destruct (Ascii.eqb c quotation_mark).
  { split; [done|]. intros s rest [= <- <-]. simpl. lia. }
  destruct (Ascii.eqb c reverse_solidus).
  - destruct t as [|e t]; [by split|]. simpl in Hle.
    destruct (simple_escape e).
    + destruct (IH t ltac:(lia)) as [Hfuel Hrest].
      destruct (parse_string_chars t) as [s' rest'| | |] eqn:Ht; try done.
      split; [done|]. intros s rest [= <- <-].
      specialize (Hrest _ _ eq_refl). simpl. lia.
    + destruct (Ascii.eqb e "u"%char); [|by split].
      destruct t as [|h1 [|h2 [|h3 [|h4 t]]]]; try by split.
      simpl in Hle.
      destruct (hex_value h1), (hex_value h2), (hex_value h3),
        (hex_value h4); try by split.
      destruct (_ <? 256)%N; [|by split].
      destruct (IH t ltac:(lia)) as [Hfuel Hrest].
      destruct (parse_string_chars t) as [s' rest'| | |] eqn:Ht; try done.
      split; [done|]. intros s rest [= <- <-].
      specialize (Hrest _ _ eq_refl). simpl. lia.
  - destruct (N_of_ascii c <? 32)%N; [by split|].
    destruct (IH t ltac:(lia)) as [Hfuel Hrest].
    destruct (parse_string_chars t) as [s' rest'| | |] eqn:Ht; try done.
    split; [done|]. intros s rest [= <- <-].
    specialize (Hrest _ _ eq_refl). simpl. lia.
Qed.

Lemma span_digits_length t digits rest :
  span_digits t = (digits, rest) →
  (length digits + length rest = length t)%nat.
Proof.
  revert digits rest. induction t as [|c t IH]; intros digits rest; simpl.
  - by intros [= <- <-].
  - destruct (is_digit c).
    + destruct (span_digits t) as [digits' rest'].
      intros [= <- <-]. specialize (IH _ _ eq_refl). simpl. lia.
    + intros [= <- <-]. simpl. lia.
Qed.

Lemma parse_number_consumes t :
  parse_number t ≠ OutOfFuel
  ∧ ∀ n rest, parse_number t = Ok n rest → (length rest < length t)%nat.
Proof.
  unfold parse_number.
  set (start := match t with
                | c :: t' =>
                    if Ascii.eqb c "-"%char then (true, t') else (false, t)
                | [] => (false, t)
                end).
  assert (Hstart : (length start.2 ≤ length t)%nat).
  { unfold start. destruct t as [|c t]; [done|].
    destruct (Ascii.eqb c "-"%char); simpl; lia. }
  destruct start as [negative t1]. simpl in Hstart.
  destruct (span_digits t1) as [digits rest0] eqn:Hspan.
  apply span_digits_length in Hspan.
  destruct (NilEmpty.uint_of_string _) as [d|] eqn:Hd; [|by split].
  destruct (String.eqb _ _) eqn:Hcanon; [|by split].
  assert (Hdigits : digits ≠ []).
  { intros ->. simpl in Hd. injection Hd as <-. done. }
  assert (Hlen : (length rest0 < length t)%nat).
  { destruct digits; [done|]. simpl in Hspan. lia. }
  destruct rest0 as [|c rest0].
  - split; [done|]. by intros n rest [= <- <-].
  - destruct (_ || _); [by split|].
    split; [done|]. by intros n rest [= <- <-].
Qed.

Lemma parse_literal_consumes word v t :
  word ≠ "" →
  parse_literal word v t ≠ OutOfFuel
  ∧ ∀ v' rest, parse_literal word v t = Ok v' rest →
               (length rest < length t)%nat.
Proof.
  intros Hword. unfold parse_literal.
  destruct (bool_decide _) eqn:Htake; [|by split].
  apply bool_decide_eq_true in Htake.
  split; [done|]. intros v' rest [= <- <-].
  assert (Hpos : (0 < length (chars word))%nat).
  { destruct word; [done|]. simpl. lia. }
  rewrite length_drop.
  assert (length (take (length (chars word)) t) = length (chars word))
    as Hlen by (by rewrite Htake).
  rewrite length_take in Hlen. lia.
Qed.

Lemma consumes_weaken {A} (r : parsed A) t t' :
  consumes r t → (length t ≤ length t')%nat → consumes r t'.
Proof.
  intros [Hfuel Hrest] Hle. split; [done|].
  intros a rest Hr. specialize (Hrest a rest Hr). lia.
Qed.

Lemma consumes_Malformed {A} message t :
  consumes (@Malformed A message) t.
Proof. by split. Qed.

Lemma consumes_Ok {A} (a : A) rest t :
  (length rest < length t)%nat → consumes (Ok a rest) t.
Proof. intros Hlt. split; [done|]. by intros a' rest' [= <- <-]. Qed.

Lemma parse_fuel fuel :
  (∀ t, (length t < fuel)%nat → consumes (parse_value fuel t) t)
  ∧ (∀ t acc, (length t < fuel)%nat →
              consumes (parse_elements fuel t acc) t)
  ∧ (∀ t acc, (length t < fuel)%nat →
              consumes (parse_members fuel t acc) t).
Proof.
  induction fuel as [|f (IHvalue & IHelements & IHmembers)].
  { repeat split; intros; lia. }
  split; [|split].
  - intros t Hfuel. cbn [parse_value].
    pose proof (skip_whitespace_length t) as Hskip.
    destruct (skip_whitespace t) as [|c t1]; [apply consumes_Malformed|].
    simpl in Hskip.
    destruct (Ascii.eqb c "["%char).
    { pose proof (skip_whitespace_length t1) as Hskip1.
      destruct (skip_whitespace t1) as [|c1 t2]; [apply consumes_Malformed|].
      simpl in Hskip1.
      destruct (Ascii.eqb c1 "]"%char); [apply consumes_Ok; lia|].
      destruct (IHvalue t1 ltac:(lia)) as [Hfuel1 Hrest1].
      destruct (parse_value f t1) as [v t3| | |]; try by split.
      specialize (Hrest1 _ _ eq_refl).
      apply (consumes_weaken _ t3); [|lia].
      apply IHelements. lia. }
    destruct (Ascii.eqb c "{"%char).
    { pose proof (skip_whitespace_length t1) as Hskip1.
      destruct (skip_whitespace t1) as [|c1 t2]; [apply consumes_Malformed|].
      simpl in Hskip1.
      destruct (Ascii.eqb c1 "}"%char); [apply consumes_Ok; lia|].
      apply (consumes_weaken _ t1); [|lia].
      apply IHmembers. lia. }
    destruct (Ascii.eqb c quotation_mark).
    { destruct (parse_string_chars_consumes t1) as [Hfuel1 Hrest1].
      destruct (parse_string_chars t1) as [s rest| | |]; try by split.
      specialize (Hrest1 _ _ eq_refl). apply consumes_Ok. lia. }
    destruct (Ascii.eqb c "-"%char || is_digit c).
    { destruct (parse_number_consumes (c :: t1)) as [Hfuel1 Hrest1].
      destruct (parse_number (c :: t1)) as [n rest| | |]; try by split.
      specialize (Hrest1 _ _ eq_refl). simpl in Hrest1.
      apply consumes_Ok. lia. }
    destruct (Ascii.eqb c "t"%char).
    { apply (consumes_weaken _ (c :: t1)); [|simpl; lia].
      by apply parse_literal_consumes. }
    destruct (Ascii.eqb c "f"%char).
    { apply (consumes_weaken _ (c :: t1)); [|simpl; lia].
      by apply parse_literal_consumes. }
    destruct (Ascii.eqb c "n"%char).
    { apply (consumes_weaken _ (c :: t1)); [|simpl; lia].
      by apply parse_literal_consumes. }
    apply consumes_Malformed.
  - intros t acc Hfuel. cbn [parse_elements].
    pose proof (skip_whitespace_length t) as Hskip.
    destruct (skip_whitespace t) as [|c t1]; [apply consumes_Malformed|].
    simpl in Hskip.
    destruct (Ascii.eqb c "]"%char); [apply consumes_Ok; lia|].
    destruct (Ascii.eqb c ","%char); [|apply consumes_Malformed].
    destruct (IHvalue t1 ltac:(lia)) as [Hfuel1 Hrest1].
    destruct (parse_value f t1) as [v t2| | |]; try by split.
    specialize (Hrest1 _ _ eq_refl).
    apply (consumes_weaken _ t2); [|lia].
    apply IHelements. lia.
  - intros t acc Hfuel. cbn [parse_members].
    pose proof (skip_whitespace_length t) as Hskip.
    destruct (skip_whitespace t) as [|c t1]; [apply consumes_Malformed|].
    simpl in Hskip.
    destruct (Ascii.eqb c quotation_mark); [|apply consumes_Malformed].
    destruct (parse_string_chars_consumes t1) as [Hfuel1 Hrest1].
    destruct (parse_string_chars t1) as [key t2| | |]; try by split.
    specialize (Hrest1 _ _ eq_refl).
    pose proof (skip_whitespace_length t2) as Hskip2.
    destruct (skip_whitespace t2) as [|c2 t3]; [apply consumes_Malformed|].
    simpl in Hskip2.
    destruct (Ascii.eqb c2 ":"%char); [|apply consumes_Malformed].
    destruct (IHvalue t3 ltac:(lia)) as [Hfuel3 Hrest3].
    destruct (parse_value f t3) as [v t4| | |]; try by split.
    specialize (Hrest3 _ _ eq_refl).
    pose proof (skip_whitespace_length t4) as Hskip4.
    destruct (skip_whitespace t4) as [|c4 t5]; [apply consumes_Malformed|].
    simpl in Hskip4.
    destruct (Ascii.eqb c4 "}"%char); [apply consumes_Ok; lia|].
    destruct (Ascii.eqb c4 ","%char); [|apply consumes_Malformed].
    apply (consumes_weaken _ t5); [|lia].
    apply IHmembers. lia.
Qed.

(** [JSON_parse_reference] gives its reader more fuel than it can use. *)
Lemma JSON_parse_reference_fuel text :
  parse_value (S (length (chars text))) (chars text) ≠ OutOfFuel.
Proof.
  destruct (parse_fuel (S (length (chars text)))) as (Hvalue & _ & _).
  apply (Hvalue (chars text)). lia.
Qed.

(** ** Canonical strings and [parse] *)

Lemma createCanonicalJsonString_compact v :
  createCanonicalJsonString v None None
  = Some (string_of_list_ascii (compact (canonicalize v None))).
Proof.
  unfold createCanonicalJsonString, JSON_stringify. simpl gap_of.
  by rewrite SerializeJSONProperty_compact by apply canonicalize_JsonValue.
Qed.





(** ** The properties and the key order of a canonical object *)

(** X13.  Whatever the comparator, the result has exactly the keys of the
    input whose value is not [undefined], each with the canonical form of
    its value; a key whose value is [undefined] is dropped. *)
Lemma canonicalize_object_properties properties compareFn newObj key :
  canonicalize (JObject properties) compareFn = JObject newObj →
  (key ∈ Object_keys newObj
   ↔ key ∈ Object_keys properties
     ∧ is_undefined (js_get properties key) = false)
  ∧ js_get newObj key
    = if is_undefined (js_get properties key) then JUndefined
      else canonicalize (js_get properties key) compareFn.
Proof.
  rewrite canonicalize_object. intros [= <-].
  split.
  - rewrite fold_left_canonicalize_step_keys, Array_sort_elem_of.
    split; [|tauto]. by intros [?%elem_of_nil|?].
  - rewrite fold_left_canonicalize_step_get.
    destruct (is_undefined (js_get properties key)) eqn:Hkey.
    + by rewrite andb_false_r.
    + rewrite andb_true_r.
      rewrite bool_decide_eq_true_2; [done|].
      apply Array_sort_elem_of, hasOwnProperty_elem_of.
      destruct (hasOwnProperty properties key) eqn:Hown; [done|].
      by rewrite js_get_not_own in Hkey.
Qed.

Lemma fold_left_canonicalize_step_no_index value f keys newObj :
  (∀ key, key ∈ keys → array_index key = None) →
  NoDup (Object_keys newObj ++ keys) →
  Object_keys (fold_left (canonicalize_step value f) keys newObj)
  = Object_keys newObj
    ++ filter (λ key, is_undefined (js_get value key) = false) keys.
Proof.
  revert newObj.
  induction keys as [|key keys IH]; intros newObj Hindex Hnodup; simpl.
  - by rewrite app_nil_r.
  - rewrite canonicalize_step_eq, filter_cons.
    destruct (is_undefined (js_get value key)) eqn:Hkey.
    + rewrite decide_False by done. apply IH.
      * intros k Hk. apply Hindex. by right.
      * apply NoDup_app in Hnodup as (? & Hdisjoint & [_ ?]%NoDup_cons).
        apply NoDup_app. split; [done|]. split; [|done].
        intros x Hx Hin. apply (Hdisjoint x Hx). by right.
    + rewrite decide_True by done.
      assert (Hset : js_set newObj key (f key) = newObj ++ [(key, f key)]).
      { unfold js_set.
        destruct (hasOwnProperty newObj key) eqn:Hown.
        - apply hasOwnProperty_elem_of in Hown.
          apply NoDup_app in Hnodup as (_ & Hdisjoint & _).
          exfalso. apply (Hdisjoint key Hown). by left.
        - by rewrite (Hindex key) by (by left). }
      rewrite Hset, IH.
      * unfold Object_keys. rewrite fmap_app. simpl.
        by rewrite <- app_assoc.
      * intros k Hk. apply Hindex. by right.
      * unfold Object_keys in *. rewrite fmap_app. simpl.
        by rewrite <- app_assoc.
Qed.

(** When no key is an array index, the result enumerates the surviving keys
    in the order in which the sort left them, whatever the comparator. *)
Lemma canonicalize_object_keys_without_index properties compareFn newObj :
  NoDup (Object_keys properties) →
  (∀ key, key ∈ Object_keys properties → array_index key = None) →
  canonicalize (JObject properties) compareFn = JObject newObj →
  Object_keys newObj
  = filter (λ key, is_undefined (js_get properties key) = false)
      (Array_sort (SortCompare compareFn) (Object_keys properties)).
Proof.
  intros Hnodup Hindex. rewrite canonicalize_object. intros [= <-].
  rewrite fold_left_canonicalize_step_no_index; [done| |].
  - intros key Hkey%Array_sort_elem_of. by apply Hindex.
  - simpl. by rewrite Array_sort_Permutation.
Qed.

Lemma Object_keys_js_set_new o key v :
  hasOwnProperty o key = false →
  Object_keys (js_set o key v) ≡ₚ Object_keys o ++ [key].
Proof.
  intros Hown. unfold js_set, Object_keys. rewrite Hown.
  destruct (array_index key).
  - rewrite insert_index_Permutation. csimpl.
    by rewrite Permutation_cons_append.
  - by rewrite fmap_app.
Qed.

Lemma filter_named_insert_index n key v o :
  array_index key = Some n →
  filter (λ k, is_named k = true) (Object_keys (insert_index n key v o))
  = filter (λ k, is_named k = true) (Object_keys o).
Proof.
  intros Hkey. unfold Object_keys.
  assert (Hnamed : is_named key ≠ true).
  { unfold is_named. by rewrite Hkey. }
  induction o as [|[k x] o IH]; csimpl.
  - by rewrite filter_cons, decide_False.
  - destruct (array_index k) as [m|] eqn:Hm; [destruct (m <? n)%N|]; csimpl.
    + rewrite !(filter_cons _ k). by rewrite IH.
    + by rewrite (filter_cons _ key), decide_False.
    + by rewrite (filter_cons _ key), decide_False.
Qed.

Lemma fold_left_canonicalize_step_named value f keys newObj :
  NoDup (Object_keys newObj ++ keys) →
  filter (λ k, is_named k = true)
    (Object_keys (fold_left (canonicalize_step value f) keys newObj))
  = filter (λ k, is_named k = true) (Object_keys newObj)
    ++ filter (λ k, is_named k = true
                    ∧ is_undefined (js_get value k) = false) keys.
Proof.
  revert newObj.
  induction keys as [|key keys IH]; intros newObj Hnodup; simpl.
  - by rewrite app_nil_r.
  - rewrite canonicalize_step_eq, (filter_cons _ key).
    assert (Hown : hasOwnProperty newObj key = false).
    { destruct (hasOwnProperty newObj key) eqn:Hown; [|done].
      apply hasOwnProperty_elem_of in Hown.
      apply NoDup_app in Hnodup as (_ & Hdisjoint & _).
      exfalso. apply (Hdisjoint key Hown). by left. }
    destruct (is_undefined (js_get value key)) eqn:Hkey.
    + rewrite decide_False by (by intros [_ ?]). apply IH.
      apply NoDup_app in Hnodup as (? & Hdisjoint & [_ ?]%NoDup_cons).
      apply NoDup_app. split; [done|]. split; [|done].
      intros x Hx Hin. apply (Hdisjoint x Hx). by right.
    + rewrite IH.
      * unfold js_set. rewrite Hown.
        destruct (array_index key) as [n|] eqn:Hindex.
        -- assert (Hnamed : is_named key = false)
             by (unfold is_named; by rewrite Hindex).
           rewrite (filter_named_insert_index n) by done.
           rewrite decide_False; [done|]. intros [? _]. congruence.
        -- assert (Hnamed : is_named key = true)
             by (unfold is_named; by rewrite Hindex).
           rewrite decide_True by done.
           unfold Object_keys. rewrite fmap_app, filter_app. csimpl.
           rewrite (filter_cons _ key), decide_True by done.
           by rewrite filter_nil, <- app_assoc.
      * rewrite (Object_keys_js_set_new _ _ _ Hown), <- app_assoc. done.
Qed.

Lemma fold_left_canonicalize_step_enumeration value f keys newObj :
  StronglySorted enumeration_order (Object_keys newObj) →
  StronglySorted enumeration_order
    (Object_keys (fold_left (canonicalize_step value f) keys newObj)).
Proof.
  revert newObj.
  induction keys as [|key keys IH]; intros newObj Hsorted; simpl; [done|].
  apply IH. rewrite canonicalize_step_eq.
  destruct (is_undefined (js_get value key)); [done|].
  apply js_set_sorted; [done|]. by intros x Hnew Hx _ _ ->.
Qed.

(** X14.  What the code does with the keys, whatever the comparator: the
    result enumerates the array indices first, in ascending order, and then
    the other surviving keys in the order in which the sort left them. *)
Lemma canonicalize_object_enumeration properties compareFn newObj :
  NoDup (Object_keys properties) →
  canonicalize (JObject properties) compareFn = JObject newObj →
  StronglySorted enumeration_order (Object_keys newObj)
  ∧ filter (λ key, is_named key = true) (Object_keys newObj)
    = filter (λ key, is_named key = true
                     ∧ is_undefined (js_get properties key) = false)
        (Array_sort (SortCompare compareFn) (Object_keys properties)).
Proof.
  intros Hnodup. rewrite canonicalize_object. intros [= <-]. split.
  - apply fold_left_canonicalize_step_enumeration. constructor.
  - rewrite fold_left_canonicalize_step_named; [done|].
    simpl. by rewrite Array_sort_Permutation.
Qed.

(** C2 at an object with two array indices as keys.  The sorted keys are
    [10], [9]; the properties are defined in that order; but the object that
    [canonicalize] returns enumerates [9] before [10], and so does the
    canonical string. *)
Theorem canonicalize_array_index_keys :
  let value := [("9", JNumber (Int 2)); ("10", JNumber (Int 1))] in
  let sortedKeys := Array_sort (SortCompare None) (Object_keys value) in
  sortedKeys = ["10"; "9"]
  ∧ canonicalize (JObject value) None
    = JObject [("9", JNumber (Int 2)); ("10", JNumber (Int 1))]
  ∧ createCanonicalJsonString (JObject value) None None
    = Some (json_text "{'9':2,'10':1}")
  ∧ canonicalize
      (JObject [("1", JNull); ("a", JNull)])
      (Some (λ a b, default_compare b a))
    = JObject [("1", JNull); ("a", JNull)]
  ∧ Array_sort (λ a b, default_compare b a) ["1"; "a"] = ["a"; "1"].
Proof. repeat split; reflexivity. Qed.

(** ** The scenarios of the specification, run on the embedding *)

Example scenario_canonicalize :
  canonicalize
    (JObject
       [("c", JNumber (Int 3));
        ("a", JObject
                [("z", JUndefined); ("y", JString "hello");
                 ("x", JArray
                         [JNumber (Int 1); JUndefined;
                          JObject
                            [("bar", JUndefined); ("foo", JString "baz")]])]);
        ("b", JUndefined)])
    None
  = JObject
      [("a", JObject
               [("x", JArray
                        [JNumber (Int 1); JNull;
                         JObject [("foo", JString "baz")]]);
                ("y", JString "hello")]);
       ("c", JNumber (Int 3))].
Proof. reflexivity. Qed.

Example scenario_custom_comparator :
  canonicalize
    (JObject
       [("c", JNumber (Int 3)); ("a", JNumber (Int 1));
        ("b", JNumber (Int 2)); ("d", JNumber (Int 4))])
    (Some (λ a b, default_compare b a))
  = JObject
      [("d", JNumber (Int 4)); ("c", JNumber (Int 3));
       ("b", JNumber (Int 2)); ("a", JNumber (Int 1))].
Proof. reflexivity. Qed.

Example scenario_stringify :
  createCanonicalJsonString
    (JObject
       [("c", JNumber (Int 3)); ("a", JNumber (Int 1));
        ("b", JString "test")])
    None None
  = Some (json_text "{'a':1,'b':'test','c':3}").
Proof. reflexivity. Qed.

Example scenario_semanticDedupe :
  semanticDedupe
    [JObject [("a", JNumber (Int 1)); ("b", JNumber (Int 2))];
     JObject [("b", JNumber (Int 2)); ("a", JNumber (Int 1))];
     JObject [("a", JNumber (Int 1)); ("b", JNumber (Int 3))]]
  = [JObject [("a", JNumber (Int 1)); ("b", JNumber (Int 2))];
     JObject [("a", JNumber (Int 1)); ("b", JNumber (Int 3))]].
Proof. vm_compute. reflexivity. Qed.

Example scenario_dedupeBy :
  dedupeBy [10; 25; 10; 30; 25; 10] (λ z : Z, z) = [10; 25; 30].
Proof. vm_compute. reflexivity. Qed.

Example scenario_semanticEquals :
  semanticEquals (Argument 0 JUndefined) (Argument 0 JNull) = true
  ∧ semanticEquals (Argument 1 (JObject [("x", JUndefined)]))
      (Argument 2 (JObject [])) = true
  ∧ semanticEquals
      (Argument 1 (JArray [JNumber (Int 1); JUndefined; JNumber (Int 3)]))
      (Argument 2 (JArray [JNumber (Int 1); JNull; JNumber (Int 3)]))
    = true
  ∧ semanticEquals
      (Argument 1 (JArray [JNumber (Int 1); JString "a"]))
      (Argument 2 (JArray [JString "a"; JNumber (Int 1)]))
    = false.
Proof. repeat split; reflexivity. Qed.

Example scenario_safeParse :
  safeParse JSON_parse_reference "{invalid"
  = Return (Failure (SyntaxError "Unexpected token in JSON"))
  ∧ safeParse JSON_parse_reference (json_text "{'a':1}")
    = Return (Success (JObject [("a", JNumber (Int 1))]))
  ∧ safeParse JSON_parse_reference ""
    = Return (Failure (SyntaxError "Unexpected end of JSON input"))
  ∧ safeParse (λ _, Throw (OtherError "RangeError" "too deep")) "[]"
    = Return
        (Failure
           (SyntaxError "Unknown parsing error: RangeError: too deep")).
Proof. repeat split; reflexivity. Qed.

(* ================================================================= *)
(** * Further properties *)

(** ** [dedupeBy] and [semanticDedupe] *)

Section dedupeBy_more.
Context {T K : Type} `{Countable K}.
Variable stringifier : T → K.

Lemma dedupeBy_sublist (items : list T) :
  sublist (dedupeBy items stringifier) items.
Proof.
  induction items as [|x items IH] using rev_ind; [by rewrite dedupeBy_nil|].
  rewrite dedupeBy_snoc. destruct (decide _).
  - rewrite app_nil_r. by apply sublist_inserts_r.
  - by apply sublist_app.
Qed.

Lemma dedupeBy_keys (items : list T) (key : K) :
  key ∈ stringifier <$> dedupeBy items stringifier
  ↔ key ∈ stringifier <$> items.
Proof.
  induction items as [|x items IH] using rev_ind; [by rewrite dedupeBy_nil|].
  rewrite dedupeBy_snoc, !fmap_app, !elem_of_app, IH. simpl.
  destruct (decide _) as [Hin|Hin]; simpl; [|done].
  rewrite elem_of_nil, list_elem_of_singleton.
  split; [tauto|]. intros [? | ->]; tauto.
Qed.

Lemma dedupeBy_NoDup_keys (items : list T) :
  NoDup (stringifier <$> dedupeBy items stringifier).
Proof.
  induction items as [|x items IH] using rev_ind.
  { rewrite dedupeBy_nil. constructor. }
  rewrite dedupeBy_snoc. destruct (decide _) as [Hin|Hin].
  - by rewrite app_nil_r.
  - rewrite fmap_app. apply NoDup_app. split; [done|]. split.
    + intros k Hk. simpl. rewrite list_elem_of_singleton. intros ->.
      apply Hin. by apply dedupeBy_keys.
    + simpl. apply NoDup_singleton.
Qed.

Lemma dedupeBy_distinct_keys (items : list T) :
  NoDup (stringifier <$> items) → dedupeBy items stringifier = items.
Proof.
  induction items as [|x items IH] using rev_ind; [done|].
  rewrite fmap_app. intros (Hitems & Hnew & _)%NoDup_app.
  rewrite dedupeBy_snoc, IH by done.
  rewrite decide_False; [done|].
  intros Hin. apply (Hnew _ Hin). simpl. by left.
Qed.

(** X1.  Deduplicating twice is deduplicating once. *)
Theorem dedupeBy_idempotent :
  ∀ items : list T,
    dedupeBy (dedupeBy items stringifier) stringifier
    = dedupeBy items stringifier.
Proof.
  intros items.
  pose proof (dedupeBy_NoDup_keys items) as Hdistinct.
  by apply dedupeBy_distinct_keys.
Qed.

(** X2.  The result is never longer than the input, and it is the input
    itself exactly when the keys of the input are pairwise distinct. *)
Theorem dedupeBy_unchanged_iff_distinct :
  ∀ items : list T,
    (length (dedupeBy items stringifier) ≤ length items)%nat
    ∧ (dedupeBy items stringifier = items ↔ NoDup (stringifier <$> items)).
Proof.
  intros items. split.
  - apply sublist_length, dedupeBy_sublist.
  - split.
    + intros Heq. rewrite <- Heq at 1. apply dedupeBy_NoDup_keys.
    + apply dedupeBy_distinct_keys.
Qed.

(** X3.  Deduplicating a concatenation: the first list is deduplicated on
    its own, and of the second list remain the first occurrences whose key
    the first list does not have. *)
Theorem dedupeBy_app :
  ∀ items1 items2 : list T,
    dedupeBy (items1 ++ items2) stringifier
    = dedupeBy items1 stringifier
      ++ filter (λ item, stringifier item ∉ stringifier <$> items1)
           (dedupeBy items2 stringifier).
Proof.
  intros items1 items2.
  induction items2 as [|x items2 IH] using rev_ind.
  - by rewrite app_nil_r, dedupeBy_nil, filter_nil, app_nil_r.
  - rewrite app_assoc, !dedupeBy_snoc, IH, filter_app, <- app_assoc.
    f_equal. f_equal. rewrite fmap_app.
    destruct (decide (stringifier x ∈ stringifier <$> items2)) as [H2|H2].
    + rewrite decide_True by (apply elem_of_app; by right).
      by rewrite filter_nil.
    + destruct (decide (stringifier x ∈ stringifier <$> items1)) as [H1|H1].
      * rewrite decide_True by (apply elem_of_app; by left).
        rewrite filter_cons, decide_False by (intros Hn; by apply Hn).
        by rewrite filter_nil.
      * rewrite decide_False by (intros [?|?]%elem_of_app; done).
        rewrite filter_cons, decide_True by done. by rewrite filter_nil.
Qed.
End dedupeBy_more.

Lemma NoDup_fmap_eq {A B} (f : A → B) (l : list A) x y :
  NoDup (f <$> l) → x ∈ l → y ∈ l → f x = f y → x = y.
Proof.
  induction l as [|z l IH]; csimpl; [by intros _ ?%elem_of_nil|].
  intros [Hz Hl]%NoDup_cons [->|Hx]%elem_of_cons [->|Hy]%elem_of_cons Hxy;
    [done| | |by apply IH].
  - exfalso. apply Hz. rewrite Hxy. by apply list_elem_of_fmap_2.
  - exfalso. apply Hz. rewrite <- Hxy. by apply list_elem_of_fmap_2.
Qed.

(** ** [semanticEquals] as a relation *)

Lemma semanticEquals_same_string a b :
  createCanonicalJsonString (value_of a) None None
  = createCanonicalJsonString (value_of b) None None →
  semanticEquals a b = true.
Proof.
  intros Heq. unfold semanticEquals.
  destruct (IsStrictlyEqual a b); [done|]. by apply bool_decide_eq_true.
Qed.

Lemma semanticEquals_true_string a b :
  aliasing_consistent a b →
  semanticEquals a b = true →
  createCanonicalJsonString (value_of a) None None
  = createCanonicalJsonString (value_of b) None None.
Proof.
  intros Halias. unfold semanticEquals.
  destruct (IsStrictlyEqual a b) eqn:Heq.
  - intros _. by apply IsStrictlyEqual_same_string.
  - by intros ?%bool_decide_eq_true.
Qed.

Lemma Number_equal_sym x y : Number_equal x y = Number_equal y x.
Proof.
  destruct x as [| | | |a], y as [| | | |b]; try done.
  all: try (destruct a; done).
  all: try (destruct b; done).
  simpl. destruct a, b; try done; apply Z.eqb_sym.
Qed.

Lemma IsStrictlyEqual_sym a b : IsStrictlyEqual a b = IsStrictlyEqual b a.
Proof.
  unfold IsStrictlyEqual.
  destruct (value_of a) as [| |x|x|x|x|x], (value_of b) as [| |y|y|y|y|y];
    try done.
  - by destruct x, y.
  - apply Number_equal_sym.
  - apply String.eqb_sym.
  - apply Nat.eqb_sym.
  - apply Nat.eqb_sym.
  - apply Nat.eqb_sym.
  - apply Nat.eqb_sym.
Qed.

(** X4.  [semanticEquals] is reflexive and symmetric, whatever the
    arguments. *)
Theorem semanticEquals_reflexive_symmetric :
  ∀ a b : argument,
    semanticEquals a a = true
    ∧ semanticEquals a b = semanticEquals b a.
Proof.
  intros a b. split.
  - by apply semanticEquals_same_string.
  - unfold semanticEquals. rewrite (IsStrictlyEqual_sym a b).
    destruct (IsStrictlyEqual b a); [done|].
    apply bool_decide_ext. split; intros Heq; by symmetry.
Qed.

(** X5.  [semanticEquals] is transitive. *)
Theorem semanticEquals_transitive :
  ∀ a b c : argument,
    aliasing_consistent a b →
    aliasing_consistent b c →
    semanticEquals a b = true →
    semanticEquals b c = true →
    semanticEquals a c = true.
Proof.
  intros a b c Hab Hbc Heq1 Heq2.
  apply semanticEquals_same_string.
  rewrite (semanticEquals_true_string a b Hab Heq1).
  by apply semanticEquals_true_string.
Qed.

Lemma semanticEquals_transitive_witness :
  let a := Argument 1 (JObject [("x", JUndefined); ("a", JNumber NegZero)]) in
  let b := Argument 2 (JObject [("a", JNumber (Int 0))]) in
  let c := Argument 3 (JObject [("a", JNumber (Int 0)); ("y", JUndefined)]) in
  aliasing_consistent a b
  ∧ aliasing_consistent b c
  ∧ semanticEquals a b = true
  ∧ semanticEquals b c = true
  ∧ semanticEquals a c = true.
Proof.
  intros a b c.
  assert (Hab : aliasing_consistent a b) by (by intros (_ & _ & ?)).
  assert (Hbc : aliasing_consistent b c) by (by intros (_ & _ & ?)).
  assert (Heq1 : semanticEquals a b = true) by reflexivity.
  assert (Heq2 : semanticEquals b c = true) by reflexivity.
  repeat (split; [assumption|]).
  exact (semanticEquals_transitive a b c Hab Hbc Heq1 Heq2).
Defined.



(** X7.  Two objects with the same properties in different orders are
    semantically equal, also when they are two distinct objects. *)
Theorem semanticEquals_key_order :
  ∀ (i j : nat) (m1 m2 : JsonLikeObject),
    NoDup (Object_keys m1) →
    m1 ≡ₚ m2 →
    semanticEquals (Argument i (JObject m1)) (Argument j (JObject m2)) = true.
Proof.
  intros i j m1 m2 Hnodup Hperm. apply semanticEquals_same_string. simpl.
  unfold createCanonicalJsonString.
  by rewrite (canonicalize_object_Permutation m1 m2).
Qed.

Lemma semanticEquals_key_order_witness :
  let m1 := [("7", JNull); ("b", JArray [JUndefined]); ("a", JBoolean true)] in
  let m2 := [("7", JNull); ("a", JBoolean true); ("b", JArray [JUndefined])] in
  NoDup (Object_keys m1)
  ∧ m1 ≡ₚ m2
  ∧ semanticEquals (Argument 1 (JObject m1)) (Argument 2 (JObject m2)) = true.
Proof.
  intros m1 m2.
  assert (Hnodup : NoDup (Object_keys m1)).
  { apply NoDup_ListNoDup. unfold m1. simpl.
    repeat (constructor; [simpl; intuition discriminate|]). constructor. }
  assert (Hperm : m1 ≡ₚ m2).
  { unfold m1, m2. apply Permutation_skip, Permutation_swap. }
  repeat (split; [assumption|]).
  exact (semanticEquals_key_order 1 2 m1 m2 Hnodup Hperm).
Defined.

(** X8.  [semanticDedupe] keeps one representative of each class of
    semantically equal items: every item of the input is semantically equal
    to a kept item, and two kept items that are semantically equal are one
    and the same item. *)
Theorem semanticDedupe_representatives :
  ∀ items : list JsonLikeValue,
    (∀ a : argument,
       value_of a ∈ items →
       ∃ b : argument,
         value_of b ∈ semanticDedupe items ∧ semanticEquals a b = true)
    ∧ (∀ a b : argument,
         value_of a ∈ semanticDedupe items →
         value_of b ∈ semanticDedupe items →
         aliasing_consistent a b →
         semanticEquals a b = true →
         value_of a = value_of b).
Proof.
  intros items. unfold semanticDedupe. split.
  - intros a Ha.
    set (f := λ item, createCanonicalJsonString item None None) in *.
    assert (Hkey : f (value_of a) ∈ f <$> dedupeBy items f).
    { apply dedupeBy_keys. by apply list_elem_of_fmap_2. }
    apply list_elem_of_fmap in Hkey as (y & Hy & Hin).
    exists (Argument 0 y). split; [done|].
    by apply semanticEquals_same_string.
  - intros a b Ha Hb Halias Heq.
    apply (NoDup_fmap_eq
             (λ item, createCanonicalJsonString item None None)
             _ _ _ (dedupeBy_NoDup_keys _ items) Ha Hb).
    by apply semanticEquals_true_string.
Qed.

(** ** [canonicalize] with any consistent comparator *)

Lemma default_compare_consistent : consistent_comparator default_compare.
Proof.
  split.
  - intros a b. unfold default_compare, String.ltb.
    rewrite (String.compare_antisym a b).
    by destruct (String.compare b a).
  - intros a b c Hab Hbc.
    apply Z.leb_le in Hab, Hbc. apply Z.leb_le.
    rewrite default_compare_leb in *.
    apply Is_true_true. apply Is_true_true in Hab, Hbc.
    by apply (transitivity (R:=String.le) Hab Hbc).
Qed.

Lemma default_compare_separating : separating_comparator default_compare.
Proof.
  intros a b. unfold default_compare, String.ltb.
  rewrite (String.compare_antisym b a).
  destruct (String.compare a b) eqn:Hab; try done.
  intros _. by apply String.compare_eq_iff.
Qed.

Lemma reverse_compare_consistent : consistent_comparator reverse_compare.
Proof.
  destruct default_compare_consistent as [Hsgn Htrans]. split.
  - intros a b. apply Hsgn.
  - intros a b c Hab Hbc. unfold reverse_compare in *. eauto.
Qed.

Lemma reverse_compare_separating : separating_comparator reverse_compare.
Proof.
  intros a b Hab. symmetry. by apply default_compare_separating.
Qed.

Section comparator.
Variable compareFn : option compare_fn.
Local Abbreviation cmp := (SortCompare compareFn).
Hypothesis Hconsistent : consistent_comparator cmp.

Lemma comparator_total a b : cmp a b ≤ 0 ∨ cmp b a ≤ 0.
Proof.
  destruct Hconsistent as [Hsgn _]. specialize (Hsgn a b).
  destruct (cmp a b), (cmp b a); simpl in *; try discriminate; lia.
Qed.

Lemma comparator_antisym a b :
  separating_comparator cmp → cmp a b ≤ 0 → cmp b a ≤ 0 → a = b.
Proof.
  intros Hseparating Hab Hba. apply Hseparating.
  destruct Hconsistent as [Hsgn _]. specialize (Hsgn a b).
  destruct (cmp a b), (cmp b a); simpl in *; try discriminate; lia.
Qed.

Lemma sort_insert_Sorted x l :
  Sorted (λ a b, cmp a b ≤ 0) l →
  Sorted (λ a b, cmp a b ≤ 0) (sort_insert cmp x l).
Proof.
  induction 1 as [|y l Hl IH Hy]; simpl.
  - by repeat constructor.
  - destruct (cmp x y <=? 0) eqn:Hxy.
    + apply Z.leb_le in Hxy. by repeat constructor.
    + apply Z.leb_gt in Hxy.
      assert (Hyx : cmp y x ≤ 0).
      { destruct (comparator_total x y); [lia|done]. }
      constructor; [done|].
      destruct l as [|z l]; simpl; [by constructor|].
      destruct (cmp x z <=? 0); constructor; try done.
      by inversion Hy.
Qed.

Lemma Array_sort_Sorted l :
  StronglySorted (λ a b, cmp a b ≤ 0) (Array_sort cmp l).
Proof.
  apply Sorted.Sorted_StronglySorted.
  - intros a b c. apply Hconsistent.
  - unfold Array_sort. induction l as [|x l IH]; simpl; [constructor|].
    by apply sort_insert_Sorted.
Qed.

Lemma fold_left_canonicalize_step_sorted_by value f keys newObj :
  StronglySorted (λ a b, cmp a b ≤ 0) keys →
  StronglySorted (sorted_before cmp) (Object_keys newObj) →
  (∀ x y, x ∈ Object_keys newObj → y ∈ keys → array_index x = None →
          cmp x y ≤ 0) →
  StronglySorted (sorted_before cmp)
    (Object_keys (fold_left (canonicalize_step value f) keys newObj)).
Proof.
  revert newObj.
  induction keys as [|key keys IH]; intros newObj Hkeys Hsorted Hle; simpl;
    [done|].
  apply StronglySorted_cons in Hkeys as [Hkey Hkeys].
  rewrite Forall_forall in Hkey.
  apply IH; [done|..]; rewrite canonicalize_step_eq;
    destruct (is_undefined (js_get value key)).
  - done.
  - apply js_set_sorted; [done|]. intros x Hnew Hx Hnone _.
    split; [|by intros ->]. apply (Hle x key); [done|by left|done].
  - intros x y Hx Hy. apply Hle; [done|by right].
  - intros x y [->|Hx]%elem_of_Object_keys_js_set Hy Hnone.
    + by apply Hkey.
    + apply Hle; [done|by right|done].
Qed.

Lemma canonical_by_array elements :
  canonical_by cmp (JArray elements) ↔ Forall (canonical_by cmp) elements.
Proof.
  induction elements as [|e l IH]; simpl in *.
  - split; [constructor | done].
  - rewrite Forall_cons. by rewrite <- IH.
Qed.

Lemma canonical_by_object properties :
  canonical_by cmp (JObject properties)
  ↔ StronglySorted (sorted_before cmp) (Object_keys properties)
    ∧ Forall (λ kv, canonical_by cmp kv.2) properties.
Proof.
  simpl. apply and_iff_compat_l.
  induction properties as [|kv l IH]; simpl in *.
  - split; [constructor | done].
  - rewrite Forall_cons. by rewrite <- IH.
Qed.

Lemma canonicalize_canonical_by v :
  canonical_by cmp (canonicalize v compareFn).
Proof.
  induction v as [| | | | |l IH|o IH] using JsonLikeValue_nested_ind;
    try done.
  - rewrite canonicalize_array, canonical_by_array, Forall_map.
    eapply Forall_impl; [exact IH|]. done.
  - rewrite canonicalize_object, canonical_by_object. split.
    + apply fold_left_canonicalize_step_sorted_by.
      * apply Array_sort_Sorted.
      * constructor.
      * by intros x y ?%elem_of_nil.
    + apply fold_left_canonicalize_step_Forall; [|constructor].
      intros key k Hown _. simpl.
      rewrite Forall_forall in IH.
      apply (IH (key, js_get o key)). by apply js_get_elem_of.
Qed.

Hypothesis Hseparating : separating_comparator cmp.

Lemma sorted_before_irrefl a : ¬ sorted_before cmp a a.
Proof.
  unfold sorted_before, key_order.
  destruct (array_index a); [lia|]. by intros [_ ?].
Qed.

Lemma sorted_before_antisym a b :
  sorted_before cmp a b → sorted_before cmp b a → a = b.
Proof.
  unfold sorted_before, key_order.
  destruct (array_index a), (array_index b); try done; [lia|].
  intros [Hab _] [Hba _]. by apply comparator_antisym.
Qed.

Lemma StronglySorted_sorted_before_NoDup keys :
  StronglySorted (sorted_before cmp) keys → NoDup keys.
Proof.
  induction 1 as [|k keys _ IH Hk]; constructor; [|done].
  intros Hin. rewrite Forall_forall in Hk.
  by apply (sorted_before_irrefl k), Hk.
Qed.

Lemma Array_sort_Permutation_by l1 l2 :
  l1 ≡ₚ l2 → Array_sort cmp l1 = Array_sort cmp l2.
Proof.
  intros Hperm.
  apply (StronglySorted_unique_strong (λ a b, cmp a b ≤ 0));
    [|apply Array_sort_Sorted..|].
  - intros x y _ _. apply comparator_antisym, Hseparating.
  - by rewrite !Array_sort_Permutation.
Qed.

(** Two results of the loop with the same surviving keys and the same
    values are the same object. *)
Lemma fold_left_canonicalize_step_unique value1 value2 f1 f2 keys1 keys2 :
  StronglySorted (λ a b, cmp a b ≤ 0) keys1 →
  StronglySorted (λ a b, cmp a b ≤ 0) keys2 →
  (∀ key, key ∈ keys1 ∧ is_undefined (js_get value1 key) = false
          ↔ key ∈ keys2 ∧ is_undefined (js_get value2 key) = false) →
  (∀ key, key ∈ keys1 → is_undefined (js_get value1 key) = false →
          f1 key = f2 key) →
  fold_left (canonicalize_step value1 f1) keys1 []
  = fold_left (canonicalize_step value2 f2) keys2 [].
Proof.
  intros Hkeys1 Hkeys2 Hsame Hvalues.
  assert (Hsorted : ∀ value f keys,
    StronglySorted (λ a b, cmp a b ≤ 0) keys →
    StronglySorted (sorted_before cmp)
      (Object_keys (fold_left (canonicalize_step value f) keys []))).
  { intros value f keys Hkeys.
    apply fold_left_canonicalize_step_sorted_by; [done|constructor|].
    by intros x y ?%elem_of_nil. }
  assert (Hmember : ∀ value f keys x,
    x ∈ Object_keys (fold_left (canonicalize_step value f) keys [])
    ↔ x ∈ keys ∧ is_undefined (js_get value x) = false).
  { intros value f keys x. rewrite fold_left_canonicalize_step_keys.
    split; [|tauto]. by intros [?%elem_of_nil|?]. }
  apply object_ext.
  - apply (StronglySorted_unique_strong (sorted_before cmp)); [|by auto..|].
    + intros x y _ _. apply sorted_before_antisym.
    + apply NoDup_Permutation.
      * by apply StronglySorted_sorted_before_NoDup, Hsorted.
      * by apply StronglySorted_sorted_before_NoDup, Hsorted.
      * intros x. by rewrite !Hmember.
  - by apply StronglySorted_sorted_before_NoDup, Hsorted.
  - intros key [Hkey Hdefined]%Hmember.
    rewrite !fold_left_canonicalize_step_get.
    rewrite (bool_decide_eq_true_2 (key ∈ keys1)) by done.
    rewrite Hdefined. simpl.
    destruct (proj1 (Hsame key) (conj Hkey Hdefined)) as [Hkey2 Hdefined2].
    rewrite (bool_decide_eq_true_2 (key ∈ keys2)) by done.
    rewrite Hdefined2. simpl. by apply Hvalues.
Qed.

Lemma canonicalize_fixes_canonical_by v :
  canonical_by cmp v → canonicalize v compareFn = v.
Proof.
  induction v as [| | | | |l IH|o IH] using JsonLikeValue_nested_ind;
    try done.
  - rewrite canonical_by_array, canonicalize_array. intros Hl. f_equal.
    induction IH as [|e l He _ IHl]; [done|].
    apply Forall_cons in Hl as [? ?]. simpl. f_equal; auto.
  - rewrite canonical_by_object, canonicalize_object.
    intros [Hsorted Hvalues]. f_equal.
    rewrite Forall_forall in IH, Hvalues.
    pose proof (StronglySorted_sorted_before_NoDup _ Hsorted) as Hnodup.
    assert (Hdefined : ∀ key, key ∈ Object_keys o →
                              is_undefined (js_get o key) = false).
    { intros key Hkey%hasOwnProperty_elem_of%js_get_elem_of.
      specialize (Hvalues _ Hkey). simpl in Hvalues.
      by destruct (js_get o key). }
    set (f := λ key, canonicalize (js_get o key) compareFn).
    set (keys := Array_sort cmp (Object_keys o)).
    assert (Hkeys : ∀ x, x ∈ Object_keys
                           (fold_left (canonicalize_step o f) keys [])
                         ↔ x ∈ Object_keys o).
    { intros x. rewrite fold_left_canonicalize_step_keys. unfold keys.
      rewrite Array_sort_elem_of. split.
      - by intros [?%elem_of_nil|[? _]].
      - intros Hx. right. auto. }
    assert (Hsorted' : StronglySorted (sorted_before cmp)
              (Object_keys (fold_left (canonicalize_step o f) keys []))).
    { apply fold_left_canonicalize_step_sorted_by.
      - apply Array_sort_Sorted.
      - constructor.
      - by intros x y ?%elem_of_nil. }
    assert (Heq : Object_keys (fold_left (canonicalize_step o f) keys [])
                  = Object_keys o).
    { apply (StronglySorted_unique_strong (sorted_before cmp)); [|done..|].
      - intros x y _ _. apply sorted_before_antisym.
      - apply NoDup_Permutation; [|done..].
        by apply StronglySorted_sorted_before_NoDup. }
    apply object_ext; [done| by rewrite Heq |].
    intros key Hkey%Hkeys.
    rewrite fold_left_canonicalize_step_get.
    unfold keys. rewrite bool_decide_eq_true_2
      by (by apply Array_sort_elem_of).
    rewrite Hdefined by done. simpl. unfold f.
    apply hasOwnProperty_elem_of, js_get_elem_of in Hkey.
    apply (IH _ Hkey). by apply (Hvalues _ Hkey).
Qed.

Lemma canonicalize_object_Permutation_by o1 o2 :
  NoDup (Object_keys o1) → o1 ≡ₚ o2 →
  canonicalize (JObject o1) compareFn = canonicalize (JObject o2) compareFn.
Proof.
  intros Hnodup Hperm. rewrite !canonicalize_object. f_equal.
  rewrite (Array_sort_Permutation_by (Object_keys o1) (Object_keys o2))
    by (unfold Object_keys; by rewrite Hperm).
  generalize (Array_sort cmp (Object_keys o2)).
  generalize (@nil (string * JsonLikeValue)).
  intros newObj keys. revert newObj.
  induction keys as [|key keys IH]; intros newObj; simpl; [done|].
  rewrite IH. f_equal. unfold canonicalize_step.
  rewrite (hasOwnProperty_Permutation o1 o2) by done.
  by rewrite (js_get_Permutation o1 o2).
Qed.

Lemma js_get_filter_defined o key :
  NoDup (Object_keys o) →
  js_get (filter (λ kv, is_undefined kv.2 = false) o) key = js_get o key.
Proof.
  unfold Object_keys.
  induction o as [|[k v] o IH]; [done|].
  rewrite fmap_cons. intros [Hk Hnodup]%NoDup_cons.
  rewrite (filter_cons _ (k, v)). simpl in Hk |- *.
  destruct (decide (is_undefined v = false)) as [Hv|Hv]; simpl;
    destruct (String.eqb k key) eqn:E; auto.
  apply String.eqb_eq in E as ->.
  etrans; [by apply IH|]. destruct v; try done.
  apply js_get_not_own.
  destruct (hasOwnProperty o key) eqn:Hown; [|done].
  by apply hasOwnProperty_elem_of in Hown.
Qed.

Lemma canonicalize_object_drop_undefined o :
  NoDup (Object_keys o) →
  canonicalize (JObject (filter (λ kv, is_undefined kv.2 = false) o))
    compareFn
  = canonicalize (JObject o) compareFn.
Proof.
  intros Hnodup. rewrite !canonicalize_object. f_equal.
  apply fold_left_canonicalize_step_unique.
  - apply Array_sort_Sorted.
  - apply Array_sort_Sorted.
  - intros key. rewrite !Array_sort_elem_of, js_get_filter_defined by done.
    split; intros [Hkey Hdefined]; (split; [|done]).
    + unfold Object_keys in *.
      apply list_elem_of_fmap in Hkey as (kv & -> & Hkv).
      apply list_elem_of_fmap. exists kv. split; [done|].
      by apply list_elem_of_filter in Hkv as [_ ?].
    + apply hasOwnProperty_elem_of, js_get_elem_of in Hkey.
      unfold Object_keys. apply list_elem_of_fmap.
      exists (key, js_get o key). split; [done|].
      by apply list_elem_of_filter.
  - intros key _ _. by rewrite js_get_filter_defined.
Qed.
Lemma js_get_map (g : JsonLikeValue → JsonLikeValue) o key :
  js_get (map (λ kv, (kv.1, g kv.2)) o) key
  = if hasOwnProperty o key then g (js_get o key) else JUndefined.
Proof.
  unfold hasOwnProperty.
  induction o as [|[k v] o IH]; simpl; [done|].
  by destruct (String.eqb k key).
Qed.

(** An object whose keys are in order and whose values are all defined is
    canonicalized property by property. *)
Lemma canonicalize_object_sorted o :
  StronglySorted (sorted_before cmp) (Object_keys o) →
  Forall (λ kv, is_undefined kv.2 = false) o →
  canonicalize (JObject o) compareFn
  = JObject (map (λ kv, (kv.1, canonicalize kv.2 compareFn)) o).
Proof.
  intros Hsorted Hdefined. rewrite canonicalize_object. f_equal.
  rewrite Forall_forall in Hdefined.
  pose proof (StronglySorted_sorted_before_NoDup _ Hsorted) as Hnodup.
  assert (Hget : ∀ key, key ∈ Object_keys o →
                        is_undefined (js_get o key) = false).
  { intros key Hkey%hasOwnProperty_elem_of%js_get_elem_of.
    apply (Hdefined _ Hkey). }
  set (f := λ key, canonicalize (js_get o key) compareFn).
  set (keys := Array_sort cmp (Object_keys o)).
  assert (Hkeys : ∀ x, x ∈ Object_keys
                         (fold_left (canonicalize_step o f) keys [])
                       ↔ x ∈ Object_keys o).
  { intros x. rewrite fold_left_canonicalize_step_keys. unfold keys.
    rewrite Array_sort_elem_of. split.
    - by intros [?%elem_of_nil|[? _]].
    - intros Hx. right. auto. }
  assert (Hsorted' : StronglySorted (sorted_before cmp)
            (Object_keys (fold_left (canonicalize_step o f) keys []))).
  { apply fold_left_canonicalize_step_sorted_by.
    - apply Array_sort_Sorted.
    - constructor.
    - by intros x y ?%elem_of_nil. }
  assert (Hmap : Object_keys
                   (map (λ kv, (kv.1, canonicalize kv.2 compareFn)) o)
                 = Object_keys o).
  { unfold Object_keys. rewrite <- list_fmap_compose. done. }
  assert (Heq : Object_keys (fold_left (canonicalize_step o f) keys [])
                = Object_keys o).
  { apply (StronglySorted_unique_strong (sorted_before cmp)); [|done..|].
    - intros x y _ _. apply sorted_before_antisym.
    - apply NoDup_Permutation; [|done..].
      by apply StronglySorted_sorted_before_NoDup. }
  apply object_ext; [by rewrite Hmap| by rewrite Heq |].
  intros key Hkey%Hkeys.
  rewrite fold_left_canonicalize_step_get.
  rewrite (js_get_map (λ v, canonicalize v compareFn)).
  unfold keys. rewrite bool_decide_eq_true_2
    by (by apply Array_sort_elem_of).
  rewrite Hget by done. simpl.
  by rewrite (proj2 (hasOwnProperty_elem_of o key)).
Qed.
Lemma js_get_defined_own o key :
  is_undefined (js_get o key) = false → key ∈ Object_keys o.
Proof.
  intros Hdefined. apply hasOwnProperty_elem_of.
  destruct (hasOwnProperty o key) eqn:Hown; [done|].
  by rewrite js_get_not_own in Hdefined.
Qed.

(** Two objects have the same canonical form exactly when they have the same
    defined properties, with the same canonical forms. *)
Lemma canonicalize_object_eq_iff o1 o2 :
  canonicalize (JObject o1) compareFn = canonicalize (JObject o2) compareFn
  ↔ ∀ key,
      is_undefined (js_get o1 key) = is_undefined (js_get o2 key)
      ∧ canonicalize (js_get o1 key) compareFn
        = canonicalize (js_get o2 key) compareFn.
Proof.
  rewrite !canonicalize_object. split.
  - intros [= Heq] key.
    apply (f_equal (λ o, js_get o key)) in Heq.
    rewrite !fold_left_canonicalize_step_get in Heq. simpl in Heq.
    pose proof (canonicalize_not_undefined (js_get o1 key) compareFn) as H1.
    pose proof (canonicalize_not_undefined (js_get o2 key) compareFn) as H2.
    destruct (is_undefined (js_get o1 key)) eqn:Hkey1,
             (is_undefined (js_get o2 key)) eqn:Hkey2.
    + split; [done|].
      destruct (js_get o1 key), (js_get o2 key); done.
    + exfalso. rewrite andb_false_r, andb_true_r in Heq.
      rewrite bool_decide_eq_true_2 in Heq
        by (by apply Array_sort_elem_of, js_get_defined_own).
      done.
    + exfalso. rewrite andb_false_r, andb_true_r in Heq.
      rewrite bool_decide_eq_true_2 in Heq
        by (by apply Array_sort_elem_of, js_get_defined_own).
      done.
    + split; [done|]. rewrite !andb_true_r in Heq.
      by rewrite !bool_decide_eq_true_2 in Heq
        by (by apply Array_sort_elem_of, js_get_defined_own).
  - intros Hsame. f_equal.
    apply fold_left_canonicalize_step_unique.
    + apply Array_sort_Sorted.
    + apply Array_sort_Sorted.
    + intros key. rewrite !Array_sort_elem_of.
      destruct (Hsame key) as [Hkey _].
      split; intros [_ Hdefined]; (split; [apply js_get_defined_own|]);
        congruence.
    + intros key _ _. apply Hsame.
Qed.
End comparator.

(** X9.  With a consistent comparator, given or default, the result of
    [canonicalize] is in canonical form for that comparator at every depth:
    it holds no [undefined], and every object in it enumerates its array
    indices first, in ascending order, and then its other keys in the order
    of the comparator. *)
Theorem canonicalize_sorted_by_comparator :
  ∀ (compareFn : option compare_fn) (v : JsonLikeValue),
    consistent_comparator (SortCompare compareFn) →
    canonical_by (SortCompare compareFn) (canonicalize v compareFn).
Proof.
  intros compareFn v Hconsistent. by apply canonicalize_canonical_by.
Qed.

Lemma canonicalize_sorted_by_comparator_witness :
  let v :=
    JObject
      [("a", JArray [JUndefined; JObject [("x", JNull); ("y", JNull)]]);
       ("2", JNull); ("c", JUndefined); ("b", JNumber (Int 1))] in
  consistent_comparator (SortCompare (Some reverse_compare))
  ∧ canonical_by (SortCompare (Some reverse_compare))
      (canonicalize v (Some reverse_compare)).
Proof.
  intros v.
  assert (Hconsistent : consistent_comparator
                          (SortCompare (Some reverse_compare)))
    by exact reverse_compare_consistent.
  split; [exact Hconsistent|].
  exact (canonicalize_sorted_by_comparator (Some reverse_compare) v
           Hconsistent).
Defined.

(** X10.  With a consistent comparator that tells any two different keys
    apart, [canonicalize] with that comparator is idempotent. *)
Theorem canonicalize_idempotent_by_comparator :
  ∀ (compareFn : option compare_fn) (v : JsonLikeValue),
    consistent_comparator (SortCompare compareFn) →
    separating_comparator (SortCompare compareFn) →
    canonicalize (canonicalize v compareFn) compareFn
    = canonicalize v compareFn.
Proof.
  intros compareFn v Hconsistent Hseparating.
  apply canonicalize_fixes_canonical_by; [done..|].
  by apply canonicalize_canonical_by.
Qed.

Lemma canonicalize_idempotent_by_comparator_witness :
  let v :=
    JObject
      [("a", JArray [JUndefined; JObject [("x", JNull); ("y", JNull)]]);
       ("2", JNull); ("c", JUndefined); ("b", JNumber (Int 1))] in
  consistent_comparator (SortCompare (Some reverse_compare))
  ∧ separating_comparator (SortCompare (Some reverse_compare))
  ∧ canonicalize (canonicalize v (Some reverse_compare))
      (Some reverse_compare)
    = canonicalize v (Some reverse_compare).
Proof.
  intros v.
  assert (Hconsistent : consistent_comparator
                          (SortCompare (Some reverse_compare)))
    by exact reverse_compare_consistent.
  assert (Hseparating : separating_comparator
                          (SortCompare (Some reverse_compare)))
    by exact reverse_compare_separating.
  repeat (split; [assumption|]).
  exact (canonicalize_idempotent_by_comparator (Some reverse_compare) v
           Hconsistent Hseparating).
Defined.

(** X11.  With such a comparator, the canonical form of an object does not
    depend on the order in which the object lists its properties. *)
Theorem canonicalize_key_order_by_comparator :
  ∀ (compareFn : option compare_fn) (o1 o2 : JsonLikeObject),
    consistent_comparator (SortCompare compareFn) →
    separating_comparator (SortCompare compareFn) →
    NoDup (Object_keys o1) →
    o1 ≡ₚ o2 →
    canonicalize (JObject o1) compareFn = canonicalize (JObject o2) compareFn.
Proof.
  intros compareFn o1 o2 Hconsistent Hseparating Hnodup Hperm.
  by apply canonicalize_object_Permutation_by.
Qed.

Lemma canonicalize_key_order_by_comparator_witness :
  let o1 := [("7", JNull); ("b", JArray [JUndefined]); ("a", JBoolean true)] in
  let o2 := [("7", JNull); ("a", JBoolean true); ("b", JArray [JUndefined])] in
  consistent_comparator (SortCompare (Some reverse_compare))
  ∧ separating_comparator (SortCompare (Some reverse_compare))
  ∧ NoDup (Object_keys o1)
  ∧ o1 ≡ₚ o2
  ∧ canonicalize (JObject o1) (Some reverse_compare)
    = canonicalize (JObject o2) (Some reverse_compare).
Proof.
  intros o1 o2.
  assert (Hconsistent : consistent_comparator
                          (SortCompare (Some reverse_compare)))
    by exact reverse_compare_consistent.
  assert (Hseparating : separating_comparator
                          (SortCompare (Some reverse_compare)))
    by exact reverse_compare_separating.
  assert (Hnodup : NoDup (Object_keys o1)).
  { apply NoDup_ListNoDup. unfold o1. simpl.
    repeat (constructor; [simpl; intuition discriminate|]). constructor. }
  assert (Hperm : o1 ≡ₚ o2).
  { unfold o1, o2. apply Permutation_skip, Permutation_swap. }
  repeat (split; [assumption|]).
  exact (canonicalize_key_order_by_comparator (Some reverse_compare) o1 o2
           Hconsistent Hseparating Hnodup Hperm).
Defined.

(** X12.  A property whose value is [undefined] counts as absent: removing
    such properties from an object does not change its canonical form. *)
Theorem canonicalize_undefined_property_as_absent :
  ∀ (compareFn : option compare_fn) (o : JsonLikeObject),
    consistent_comparator (SortCompare compareFn) →
    separating_comparator (SortCompare compareFn) →
    NoDup (Object_keys o) →
    canonicalize (JObject (filter (λ kv, is_undefined kv.2 = false) o))
      compareFn
    = canonicalize (JObject o) compareFn.
Proof.
  intros compareFn o Hconsistent Hseparating Hnodup.
  by apply canonicalize_object_drop_undefined.
Qed.

Lemma canonicalize_undefined_property_as_absent_witness :
  let o := [("c", JNumber (Int 3)); ("a", JNumber (Int 1)); ("b", JUndefined);
            ("d", JNull)] in
  consistent_comparator (SortCompare None)
  ∧ separating_comparator (SortCompare None)
  ∧ NoDup (Object_keys o)
  ∧ canonicalize (JObject (filter (λ kv, is_undefined kv.2 = false) o)) None
    = canonicalize (JObject o) None.
Proof.
  intros o.
  assert (Hconsistent : consistent_comparator (SortCompare None))
    by exact default_compare_consistent.
  assert (Hseparating : separating_comparator (SortCompare None))
    by exact default_compare_separating.
  assert (Hnodup : NoDup (Object_keys o)).
  { apply NoDup_ListNoDup. unfold o. simpl.
    repeat (constructor; [simpl; intuition discriminate|]). constructor. }
  repeat (split; [assumption|]).
  exact (canonicalize_undefined_property_as_absent None o
           Hconsistent Hseparating Hnodup).
Defined.

(** ** The properties of a canonical object, at an input *)

Lemma canonicalize_object_properties_witness :
  let properties := [("c", JNumber (Int 3)); ("b", JUndefined);
                     ("a", JArray [JUndefined])] in
  let newObj := [("a", JArray [JNull]); ("c", JNumber (Int 3))] in
  canonicalize (JObject properties) None = JObject newObj
  ∧ ("b" ∈ Object_keys newObj
     ↔ "b" ∈ Object_keys properties
       ∧ is_undefined (js_get properties "b") = false)
  ∧ js_get newObj "b"
    = if is_undefined (js_get properties "b") then JUndefined
      else canonicalize (js_get properties "b") None.
Proof.
  intros properties newObj.
  assert (Heq : canonicalize (JObject properties) None = JObject newObj)
    by reflexivity.
  split; [exact Heq|].
  exact (canonicalize_object_properties properties None newObj "b" Heq).
Defined.

Lemma canonicalize_object_enumeration_witness :
  let properties := [("10", JNull); ("9", JNull); ("b", JUndefined);
                     ("c", JNull); ("a", JNull)] in
  let newObj := [("9", JNull); ("10", JNull); ("a", JNull); ("c", JNull)] in
  NoDup (Object_keys properties)
  ∧ canonicalize (JObject properties) None = JObject newObj
  ∧ StronglySorted enumeration_order (Object_keys newObj)
  ∧ filter (λ key, is_named key = true) (Object_keys newObj)
    = filter (λ key, is_named key = true
                     ∧ is_undefined (js_get properties key) = false)
        (Array_sort (SortCompare None) (Object_keys properties)).
Proof.
  intros properties newObj.
  assert (Hnodup : NoDup (Object_keys properties)).
  { apply NoDup_ListNoDup. unfold properties. simpl.
    repeat (constructor; [simpl; intuition discriminate|]). constructor. }
  assert (Heq : canonicalize (JObject properties) None = JObject newObj)
    by reflexivity.
  repeat (split; [assumption|]).
  exact (canonicalize_object_enumeration properties None newObj Hnodup Heq).
Defined.

(** ** [createCanonicalJsonString]: the result and its composition *)

Lemma SerializeJSONProperty_undefined gap indent v :
  SerializeJSONProperty gap indent v = None ↔ v = JUndefined.
Proof. destruct v as [| |[]| | | |]; simpl; split; done. Qed.

(** X15.  [createCanonicalJsonString] returns [undefined] instead of a
    string exactly when a canonicalizer was given and returns [undefined]
    for the item; with the default canonicalizer it returns a string for
    every item and every [space]. *)
Theorem createCanonicalJsonString_undefined_iff :
  ∀ (item : JsonLikeValue)
    (canonicalizer : option (JsonLikeValue → JsonLikeValue))
    (space : option space_argument),
    createCanonicalJsonString item canonicalizer space = None
    ↔ ∃ f, canonicalizer = Some f ∧ f item = JUndefined.
Proof.
  intros item canonicalizer space. unfold createCanonicalJsonString,
    JSON_stringify.
  rewrite fmap_None, SerializeJSONProperty_undefined.
  destruct canonicalizer as [f|].
  - split; [by eexists|]. by intros (? & [= <-] & ?).
  - split; [|by intros (? & ? & _)].
    intros Hundefined. by destruct (canonicalize_not_undefined item None).
Qed.

(** X16.  The canonical string of the canonical form of a value is the
    canonical string of the value, with a consistent, separating comparator
    in the canonicalizer and with any [space]. *)
Theorem createCanonicalJsonString_of_canonical :
  ∀ (compareFn : option compare_fn) (v : JsonLikeValue)
    (space : option space_argument),
    consistent_comparator (SortCompare compareFn) →
    separating_comparator (SortCompare compareFn) →
    let canonicalizer := Some (λ item, canonicalize item compareFn) in
    createCanonicalJsonString (canonicalize v compareFn) canonicalizer space
    = createCanonicalJsonString v canonicalizer space.
Proof.
  intros compareFn v space Hconsistent Hseparating. simpl.
  unfold createCanonicalJsonString. f_equal.
  apply canonicalize_fixes_canonical_by; [done..|].
  by apply canonicalize_canonical_by.
Qed.

Lemma createCanonicalJsonString_of_canonical_witness :
  let v := JObject [("b", JArray [JUndefined]); ("a", JUndefined);
                    ("c", JNumber NaN)] in
  let canonicalizer := Some (λ item, canonicalize item (Some reverse_compare)) in
  consistent_comparator (SortCompare (Some reverse_compare))
  ∧ separating_comparator (SortCompare (Some reverse_compare))
  ∧ createCanonicalJsonString (canonicalize v (Some reverse_compare))
      canonicalizer (Some (SpaceNumber (Int 2)))
    = createCanonicalJsonString v canonicalizer (Some (SpaceNumber (Int 2))).
Proof.
  intros v canonicalizer.
  assert (Hconsistent : consistent_comparator
                          (SortCompare (Some reverse_compare)))
    by exact reverse_compare_consistent.
  assert (Hseparating : separating_comparator
                          (SortCompare (Some reverse_compare)))
    by exact reverse_compare_separating.
  repeat (split; [assumption|]).
  exact (createCanonicalJsonString_of_canonical (Some reverse_compare) v
           (Some (SpaceNumber (Int 2))) Hconsistent Hseparating).
Defined.

(** ** [safeParse] on a canonical string *)



(** ** A value whose keys are in order already *)

Lemma key_before_sorted_before a b :
  key_before a b → sorted_before (SortCompare None) a b.
Proof.
  unfold key_before, sorted_before, key_order.
  destruct (array_index a), (array_index b); try done.
  intros [Hle Hne]. split; [|done].
  apply Z.leb_le. simpl. rewrite default_compare_leb.
  by apply Is_true_true.
Qed.

Lemma StronglySorted_weaken {A} (R1 R2 : relation A) l :
  (∀ x y, R1 x y → R2 x y) → StronglySorted R1 l → StronglySorted R2 l.
Proof.
  intros Himpl. induction 1 as [|x l _ IH Hx]; constructor; [done|].
  eapply Forall_impl; [exact Hx|]. apply Himpl.
Qed.

Lemma presorted_array elements :
  presorted (JArray elements) ↔ Forall presorted elements.
Proof.
  induction elements as [|e l IH]; simpl in *.
  - split; [constructor | done].
  - rewrite Forall_cons. by rewrite <- IH.
Qed.

Lemma presorted_object properties :
  presorted (JObject properties)
  ↔ NoDup (Object_keys properties)
    ∧ StronglySorted key_before
        (Object_keys (filter (λ kv, is_undefined kv.2 = false) properties))
    ∧ Forall (λ kv, presorted kv.2) properties.
Proof.
  simpl. do 2 apply and_iff_compat_l.
  induction properties as [|kv l IH]; simpl in *.
  - split; [constructor | done].
  - rewrite Forall_cons. by rewrite <- IH.
Qed.

Lemma canonicalize_object_presorted o :
  NoDup (Object_keys o) →
  StronglySorted key_before
    (Object_keys (filter (λ kv, is_undefined kv.2 = false) o)) →
  canonicalize (JObject o) None
  = JObject (map (λ kv, (kv.1, canonicalize kv.2 None))
               (filter (λ kv, is_undefined kv.2 = false) o)).
Proof.
  intros Hnodup Hsorted.
  rewrite <- (canonicalize_object_drop_undefined None
                default_compare_consistent default_compare_separating o)
    by done.
  apply (canonicalize_object_sorted None
           default_compare_consistent default_compare_separating).
  - eapply StronglySorted_weaken; [|exact Hsorted].
    apply key_before_sorted_before.
  - apply Forall_forall. by intros kv [? _]%list_elem_of_filter.
Qed.

(** On a presorted value, [SerializeJSONProperty] writes the canonical form
    as it writes the value itself, [undefined] apart. *)
Lemma SerializeJSONProperty_canonicalize_presorted v :
  presorted v →
  ∀ gap indent,
    SerializeJSONProperty gap indent (canonicalize v None)
    = Some (default (chars "null") (SerializeJSONProperty gap indent v)).
Proof.
  induction v as [| |b|n|s|l IH|o IH] using JsonLikeValue_nested_ind;
    try done.
  - intros _ gap indent. by destruct b.
  - rewrite presorted_array, canonicalize_array. intros Hl gap indent.
    simpl. do 2 f_equal.
    generalize (indent ++ gap). intros indent'.
    induction IH as [|e l He _ IHl]; [done|].
    apply Forall_cons in Hl as [? ?]. simpl. rewrite He by done.
    by rewrite IHl.
  - rewrite presorted_object. intros (Hnodup & Hsorted & Ho) gap indent.
    rewrite canonicalize_object_presorted by done.
    simpl. do 2 f_equal.
    generalize (indent ++ gap). intros indent'. clear Hnodup Hsorted.
    induction IH as [|[k x] o Hx _ IHo]; [done|].
    apply Forall_cons in Ho as [Hk Ho]. simpl in Hx, Hk.
    rewrite (filter_cons _ (k, x)). simpl.
    destruct (decide (is_undefined x = false)) as [Hdefined|Hdefined].
    + simpl. rewrite Hx by done.
      destruct (SerializeJSONProperty gap indent' x) eqn:Hs.
      * simpl. f_equal. by apply IHo.
      * apply SerializeJSONProperty_undefined in Hs as ->. done.
    + destruct x; try done. simpl. by apply IHo.
Qed.

(** X18.  On a value other than [undefined] whose objects list their
    defined keys in canonical order already, the canonical string is the
    string that [JSON.stringify] makes of the value itself: the way
    [canonicalize] treats [undefined] is the way of [JSON.stringify]. *)
Theorem createCanonicalJsonString_presorted :
  ∀ (v : JsonLikeValue) (space : option space_argument),
    presorted v →
    v ≠ JUndefined →
    createCanonicalJsonString v None space = JSON_stringify v space.
Proof.
  intros v space Hsorted Hdefined.
  unfold createCanonicalJsonString, JSON_stringify.
  rewrite SerializeJSONProperty_canonicalize_presorted by done.
  destruct (SerializeJSONProperty (gap_of space) [] v) eqn:Hs; [done|].
  by apply SerializeJSONProperty_undefined in Hs.
Qed.

Lemma createCanonicalJsonString_presorted_witness :
  let v :=
    JObject
      [("2", JNull); ("a", JArray [JUndefined; JNumber NaN]);
       ("z", JUndefined); ("b", JObject [("y", JUndefined)])] in
  presorted v
  ∧ v ≠ JUndefined
  ∧ createCanonicalJsonString v None (Some (SpaceString "  "))
    = JSON_stringify v (Some (SpaceString "  ")).
Proof.
  intros v.
  assert (Hsorted : presorted v).
  { unfold v. simpl. repeat split.
    - apply NoDup_ListNoDup. simpl.
      repeat (constructor; [simpl; intuition discriminate|]). constructor.
    - unfold Object_keys.
      repeat (rewrite filter_cons; simpl).
      repeat constructor; done.
    - apply NoDup_ListNoDup. simpl.
      repeat (constructor; [simpl; intuition discriminate|]). constructor.
    - unfold Object_keys. constructor. }
  assert (Hdefined : v ≠ JUndefined) by done.
  repeat (split; [assumption|]).
  exact (createCanonicalJsonString_presorted v (Some (SpaceString "  "))
           Hsorted Hdefined).
Defined.

(** ** When two canonical forms are the same *)

Lemma canonicalize_array_eq_iff l1 l2 compareFn :
  canonicalize (JArray l1) compareFn = canonicalize (JArray l2) compareFn
  ↔ Forall2 (λ e1 e2, canonicalize e1 compareFn = canonicalize e2 compareFn)
      l1 l2.
Proof.
  rewrite !canonicalize_array. split.
  - intros [= Heq]. revert l2 Heq.
    induction l1 as [|e1 l1 IH]; intros [|e2 l2]; simpl; try done.
    intros [= He Hl]. constructor; auto.
  - intros Hall. f_equal.
    induction Hall as [|e1 e2 l1 l2 He _ IH]; simpl; [done|].
    by rewrite He, IH.
Qed.

(** X19.  With a consistent comparator that tells different keys apart, two
    objects have the same canonical form exactly when, at every key, either
    both have no defined property or both have one and the two values have
    the same canonical form; two arrays, exactly when they have the same
    length and, position by position, elements with the same canonical
    form. *)
Theorem canonicalize_same_iff :
  ∀ (compareFn : option compare_fn),
    consistent_comparator (SortCompare compareFn) →
    separating_comparator (SortCompare compareFn) →
    (∀ o1 o2 : JsonLikeObject,
       canonicalize (JObject o1) compareFn
       = canonicalize (JObject o2) compareFn
       ↔ ∀ key,
           is_undefined (js_get o1 key) = is_undefined (js_get o2 key)
           ∧ canonicalize (js_get o1 key) compareFn
             = canonicalize (js_get o2 key) compareFn)
    ∧ (∀ l1 l2 : list JsonLikeValue,
         canonicalize (JArray l1) compareFn
         = canonicalize (JArray l2) compareFn
         ↔ Forall2
             (λ e1 e2,
                canonicalize e1 compareFn = canonicalize e2 compareFn)
             l1 l2).
Proof.
  intros compareFn Hconsistent Hseparating. split.
  - intros o1 o2. by apply canonicalize_object_eq_iff.
  - intros l1 l2. apply canonicalize_array_eq_iff.
Qed.

Lemma canonicalize_same_iff_witness :
  consistent_comparator (SortCompare (Some reverse_compare))
  ∧ separating_comparator (SortCompare (Some reverse_compare))
  ∧ (∀ o1 o2 : JsonLikeObject,
       canonicalize (JObject o1) (Some reverse_compare)
       = canonicalize (JObject o2) (Some reverse_compare)
       ↔ ∀ key,
           is_undefined (js_get o1 key) = is_undefined (js_get o2 key)
           ∧ canonicalize (js_get o1 key) (Some reverse_compare)
             = canonicalize (js_get o2 key) (Some reverse_compare))
  ∧ (∀ l1 l2 : list JsonLikeValue,
       canonicalize (JArray l1) (Some reverse_compare)
       = canonicalize (JArray l2) (Some reverse_compare)
       ↔ Forall2
           (λ e1 e2,
              canonicalize e1 (Some reverse_compare)
              = canonicalize e2 (Some reverse_compare))
           l1 l2).
Proof.
  assert (Hconsistent : consistent_comparator
                          (SortCompare (Some reverse_compare)))
    by exact reverse_compare_consistent.
  assert (Hseparating : separating_comparator
                          (SortCompare (Some reverse_compare)))
    by exact reverse_compare_separating.
  repeat (split; [assumption|]).
  exact (canonicalize_same_iff (Some reverse_compare)
           Hconsistent Hseparating).
Defined.

(** ** The values that are semantically equal to [null] *)

Lemma compact_canonicalize_null v :
  compact (canonicalize v None) = chars "null" ↔ written_as_null v = true.
Proof.
  destruct v as [| |b|n|s|l|o]; try done.
  - by destruct b.
  - destruct n as [| | | |z]; try done.
    change (compact (canonicalize (JNumber (Int z)) None))
      with (Number_toString z).
    split; [|done].
    destruct (Number_toString_head z) as (c & t & -> & Hc).
    intros [= -> _]. done.
  - rewrite canonicalize_array. split; [|done].
    destruct l as [|e l]; [done|]. rewrite map_cons.
    pose proof (compact_array_cons (canonicalize e None)
                  (map (λ element, canonicalize element None) l) []) as H.
    rewrite app_nil_r in H. by rewrite H.
  - rewrite canonicalize_object. split; [|done].
    destruct (fold_left _ _ _) as [|kv o']; [done|].
    pose proof (compact_object_cons kv o' []) as H.
    rewrite app_nil_r in H. by rewrite H.
Qed.

(** X20.  The values that [semanticEquals] finds equal to [null] are
    [undefined], [null] itself, [NaN] and the two infinities, and no
    other. *)
Theorem semanticEquals_null_iff :
  ∀ a b : argument,
    value_of b = JNull →
    (semanticEquals a b = true ↔ written_as_null (value_of a) = true).
Proof.
  intros a b Hb. unfold semanticEquals.
  destruct (IsStrictlyEqual a b) eqn:Heq.
  - unfold IsStrictlyEqual in Heq. rewrite Hb in Heq.
    by destruct (value_of a).
  - rewrite bool_decide_eq_true, Hb, !createCanonicalJsonString_compact.
    rewrite <- compact_canonicalize_null. split.
    + intros [= Htext].
      apply (f_equal list_ascii_of_string) in Htext.
      by rewrite !list_ascii_of_string_of_list_ascii in Htext.
    + by intros ->.
Qed.

Lemma semanticEquals_null_iff_witness :
  let a := Argument 1 (JNumber NaN) in
  let b := Argument 2 JNull in
  value_of b = JNull
  ∧ (semanticEquals a b = true ↔ written_as_null (value_of a) = true).
Proof.
  intros a b.
  assert (Hb : value_of b = JNull) by reflexivity.
  split; [exact Hb|].
  exact (semanticEquals_null_iff a b Hb).
Defined.
